(** * Password generator core of script.js: random source, pool builder, composer

    A shallow embedding of [secureRandomInt], [pickOne], [shuffleInPlace],
    [buildPools] and [generatePassword] and the properties the specification
    states about them.

    JavaScript numbers that are integers in the source are [Z]; strings are
    [string]; an array is a [list]; a value that may be [undefined] (the result
    of an index out of range) is an [option].  The random generator of the
    platform is an oracle indexed by the number of values read so far, and the
    code runs in a small monad threading that counter, with exceptions and a
    loop budget for the only unbounded loop of the program. *)

From Stdlib Require Import ZArith String Ascii DecimalString Floats.
From stdpp Require Import base tactics option list strings.

Local Open Scope string_scope.
Local Open Scope list_scope.
Local Open Scope Z_scope.

(** ** The platform *)

(** [window.crypto] is either present, and then [getRandomValues] writes an
    unsigned 32-bit value into the one-element buffer at each call, or absent,
    and then the code falls back to [Math.floor(Math.random() * maxExclusive)].
    The floating-point product is not modelled: the platform supplies the
    integer that the floor evaluates to, for the given bound, at each call.
    In both cases the index is the number of random values read before. *)
Inductive platform : Type :=
| WithCrypto (getRandomValues : nat → Z)
| NoCrypto (mathRandomFloor : nat → Z → Z).

(** ** The monad *)

Inductive outcome (A : Type) : Type :=
| Done (a : A) (used : nat)     (* normal return; random values read so far *)
| Thrown (msg : string)         (* an exception escaped *)
| Spinning.                     (* [while (true)] is still running *)
Arguments Done {A} a used.
Arguments Thrown {A} msg.
Arguments Spinning {A}.

Definition M (A : Type) : Type := nat → outcome A.

Definition ret {A} (a : A) : M A := λ p, Done a p.

Definition throw {A} (msg : string) : M A := λ _, Thrown msg.

Definition bind {A B} (m : M A) (k : A → M B) : M B :=
  λ p, match m p with
       | Done a p' => k a p'
       | Thrown msg => Thrown msg
       | Spinning => Spinning
       end.

Notation "'let*' x ':=' m 'in' k" := (bind m (λ x, k))
  (at level 10, x name, m at level 100, k at level 200).

(** ** JavaScript strings and arrays *)

(** [str[i]] for a number [i] that is an integer: a character, or [undefined]
    when [i] is negative or not below [str.length]. *)
Definition str_at (str : string) (i : Z) : option ascii :=
  if i <? 0 then None else String.get (Z.to_nat i) str.

(** An array element is a one-character string or [undefined]; a hole left by
    a write past the end reads as [undefined] too. *)
Abbreviation jsarray := (list (option ascii)).

(** The largest [length] an array can have, 2^32 - 1. *)
Definition maxArrayLength : Z := 4294967295.

(** [array[i]] read. *)
Definition arr_get (array : jsarray) (i : Z) : option ascii :=
  if i <? 0 then None else mjoin (array !! Z.to_nat i).

(** [array[i] = v]: inside the array the element is replaced; from the end up
    to the last array index the array grows, with holes in between; any other
    integer is an ordinary property name and the elements stay as they are. *)
Definition arr_set (array : jsarray) (i : Z) (v : option ascii) : jsarray :=
  if (i <? 0) || (maxArrayLength <=? i) then array
  else if i <? Z.of_nat (length array) then <[Z.to_nat i := v]> array
  else array ++ replicate (Z.to_nat i - length array)%nat None ++ [v].

(** [array.push(v)] raises a RangeError when the length would pass 2^32 - 1. *)
Definition invalidArrayLengthMessage : string := "Invalid array length".

Definition arr_push (array : jsarray) (v : option ascii) : M jsarray :=
  if Z.of_nat (length array) <? maxArrayLength then ret (array ++ [v])
  else throw invalidArrayLengthMessage.

(** [array.join("")]: [undefined] elements contribute nothing. *)
Fixpoint arr_join (array : jsarray) : string :=
  match array with
  | [] => ""
  | Some c :: rest => String c (arr_join rest)
  | None :: rest => arr_join rest
  end.

(** [pools.join("")] on an array of strings. *)
Definition str_join (pools : list string) : string :=
  fold_right String.append "" pools.

(** ** Character sets *)

Module CHARSETS.
Definition upper : string := "ABCDEFGHIJKLMNOPQRSTUVWXYZ".
Definition lower : string := "abcdefghijklmnopqrstuvwxyz".
Definition numbers : string := "0123456789".
Definition symbols : string := "!@#$%^&*()-_=+[]{};:,.<>?/|~".
End CHARSETS.

(** ** The random source *)

Section Core.
(** The platform the page runs on, and the number of iterations granted to
    each run of the rejection loop. *)
Context (env : platform) (fuel : nat).

Definition uint32Max : Z := 0xffffffff.

(** [const limit = uint32Max - (uint32Max % maxExclusive)]. *)
Definition limitOf (maxExclusive : Z) : Z :=
  uint32Max - Z.rem uint32Max maxExclusive.

(** [buffer[0]] after the call number [p] of [getRandomValues]: a
    [Uint32Array] element holds its value modulo 2^32. *)
Definition drawn (getRandomValues : nat → Z) (p : nat) : Z :=
  getRandomValues p mod 2 ^ 32.

(** The [while (true)] loop of [secureRandomInt]. *)
Fixpoint rejection_loop (n : nat) (getRandomValues : nat → Z)
    (limit maxExclusive : Z) : M Z :=
  λ p, match n with
       | O => Spinning
       | S n' =>
           let value := drawn getRandomValues p in
           if value <? limit then Done (Z.rem value maxExclusive) (S p)
           else rejection_loop n' getRandomValues limit maxExclusive (S p)
       end.

Definition invalidBoundMessage : string :=
  "maxExclusive must be a positive integer".

(** [maxExclusive] is an integer by its type, so of the first test only
    [maxExclusive <= 0] remains. *)
Definition secureRandomInt (maxExclusive : Z) : M Z :=
  if maxExclusive <=? 0 then throw invalidBoundMessage
  else match env with
       | NoCrypto mathRandomFloor =>
           λ p, Done (mathRandomFloor p maxExclusive) (S p)
       | WithCrypto getRandomValues =>
           rejection_loop fuel getRandomValues (limitOf maxExclusive) maxExclusive
       end.

Definition pickOne (str : string) : M (option ascii) :=
  let* i := secureRandomInt (Z.of_nat (String.length str)) in
  ret (str_at str i).

(** The body of the [for] loop of [shuffleInPlace] from index [i] down to 1:
    the destructuring assignment reads both elements, then writes
    [array[i]] and [array[j]] in that order. *)
Fixpoint shuffle_from (i : nat) (array : jsarray) : M jsarray :=
  match i with
  | O => ret array
  | S i' =>
      let* j := secureRandomInt (Z.of_nat i + 1) in
      let at_j := arr_get array j in
      let at_i := arr_get array (Z.of_nat i) in
      shuffle_from i' (arr_set (arr_set array (Z.of_nat i) at_j) j at_i)
  end.

Definition shuffleInPlace (array : jsarray) : M jsarray :=
  shuffle_from (length array - 1)%nat array.
End Core.

(** ** The pool builder and the composer *)

(** The object returned by [getSelectedOptions]: four checkbox states. *)
Record options : Type := Options {
  upper : bool;
  lower : bool;
  numbers : bool;
  symbols : bool
}.

Definition buildPools (o : options) : list string :=
  let pools := [] in
  let pools := if upper o then pools ++ [CHARSETS.upper] else pools in
  let pools := if lower o then pools ++ [CHARSETS.lower] else pools in
  let pools := if numbers o then pools ++ [CHARSETS.numbers] else pools in
  let pools := if symbols o then pools ++ [CHARSETS.symbols] else pools in
  pools.

(** The object [{ password, error }] returned by [generatePassword]. *)
Record result : Type := Result {
  password : string;
  error : string
}.

(** A template literal prints an array length in decimal. *)
Definition decimal (n : nat) : string :=
  NilEmpty.string_of_uint (Nat.to_uint n).

Definition noOptionMessage : string :=
  "Select at least one character option.".

Definition tooShortMessage (poolCount : nat) : string :=
  String.append "Length must be at least "
    (String.append (decimal poolCount) " to include each selected type.").

Definition noCharactersMessage : string :=
  "No characters available with current options.".

Section Composer.
Context (env : platform) (fuel : nat).

(** [pools.map((pool) => pickOne(pool))]. *)
Fixpoint map_pickOne (pools : list string) : M jsarray :=
  match pools with
  | [] => ret []
  | pool :: rest =>
      let* c := pickOne env fuel pool in
      let* cs := map_pickOne rest in
      ret (c :: cs)
  end.

(** [while (chars.length < length) chars.push(pickOne(combinedPool))].
    Every iteration makes [chars] one longer, so the loop runs at most
    [length] times; [n] counts the iterations that remain available. *)
Fixpoint fill_loop (n : nat) (length : Z) (combinedPool : string)
    (chars : jsarray) : M jsarray :=
  if Z.of_nat (List.length chars) <? length then
    match n with
    | O => λ _, Spinning
    | S n' =>
        let* c := pickOne env fuel combinedPool in
        let* chars := arr_push chars c in
        fill_loop n' length combinedPool chars
    end
  else ret chars.

Definition generatePassword (length : Z) (o : options) : M result :=
  let pools := buildPools o in
  if (List.length pools =? 0)%nat then
    ret {| password := ""; error := noOptionMessage |}
  else if length <? Z.of_nat (List.length pools) then
    ret {| password := ""; error := tooShortMessage (List.length pools) |}
  else
    let* chars := map_pickOne pools in
    let combinedPool := str_join pools in
    if (String.length combinedPool =? 0)%nat then
      ret {| password := ""; error := noCharactersMessage |}
    else
      let* chars := fill_loop (Z.to_nat length) length combinedPool chars in
      let* chars := shuffleInPlace env fuel chars in
      ret {| password := arr_join chars; error := "" |}.
End Composer.

(** ** Sample platforms and requests *)

(** Secure generators: one that always draws 0, one whose draw number [k] is
    [7919 * k], and one that draws 2^32 - 2 first and 1 ever after. *)
Definition zeros : platform := WithCrypto (λ _, 0).

Definition counting : platform := WithCrypto (λ k, Z.of_nat k * 7919).

Definition topThenOne : nat → Z :=
  λ k, match k with O => 4294967294 | _ => 1 end.

(** A platform without [crypto] whose [Math.random] makes the floor take the
    values the draws of [counting] reduce to. *)
Definition countingFallback : platform :=
  NoCrypto (λ k m, Z.rem (Z.of_nat k * 7919) m).

Definition onlyUpper : options := Options true false false false.
Definition upperAndNumbers : options := Options true false true false.
Definition allClasses : options := Options true true true true.
Definition noClass : options := Options false false false false.

(** * The page around the generator *)

(** ** Numbers that are not integers *)

(** The strength estimate computes with JavaScript numbers that are not
    integers; they are the binary64 floats of the kernel, whose operations
    round as JavaScript's do. *)
Set Warnings "-inexact-float".

(** A small natural number as a JavaScript number. *)
Definition numberOfNat (n : nat) : float :=
  PrimFloat.of_uint63 (Uint63.of_Z (Z.of_nat n)).

(** What [Math.round] returns: an integer, or its argument when that is
    [NaN] or infinite. *)
Inductive rounded : Type :=
| RInt (n : Z)
| RNaN
| RInfinity (negative : bool).

(** [Math.round(x)]: the integer nearest to [x], the larger one of two that
    are equally near; computed exactly from the mantissa and exponent. *)
Definition Math_round (x : float) : rounded :=
  match Prim2SF x with
  | S754_zero _ => RInt 0
  | S754_finite negative m e =>
      let v := if negative then Z.neg m else Z.pos m in
      RInt (if 0 <=? e then v * 2 ^ e
            else (2 * v + 2 ^ (- e)) / 2 ^ (1 - e))
  | S754_infinity negative => RInfinity negative
  | S754_nan => RNaN
  end.

(** ** The elements of the page the code reads and writes *)

(** The checkboxes, the slider (as the integer [Number.parseInt] reads from
    its value), the length label (as the number [String] prints), the
    password field, the status line with its two classes, the strength label
    and the width of the strength bar (as the number of percent). *)
Record page : Type := Page {
  optUpper : bool;
  optLower : bool;
  optNumbers : bool;
  optSymbols : bool;
  lengthSlider : Z;
  lengthValue : Z;
  passwordOutput : string;
  statusMsg : string;
  statusIsError : bool;
  statusIsSuccess : bool;
  strengthText : string;
  strengthBarWidth : rounded
}.

Definition getSelectedOptions (pg : page) : options :=
  {| upper := optUpper pg; lower := optLower pg;
     numbers := optNumbers pg; symbols := optSymbols pg |}.

(** [kind] is ["error"], ["success"] or [undefined]. *)
Definition showStatus (message : string) (kind : option string) (pg : page)
    : page :=
  {| optUpper := optUpper pg; optLower := optLower pg;
     optNumbers := optNumbers pg; optSymbols := optSymbols pg;
     lengthSlider := lengthSlider pg; lengthValue := lengthValue pg;
     passwordOutput := passwordOutput pg;
     statusMsg := message;
     statusIsError := bool_decide (kind = Some "error");
     statusIsSuccess := bool_decide (kind = Some "success");
     strengthText := strengthText pg;
     strengthBarWidth := strengthBarWidth pg |}.

Definition strengthScore (password : string) (selectedPoolCount : nat)
    : float :=
  let lengthScore :=
    (numberOfNat (Nat.min 32 (String.length password)) / 32)%float in
  let varietyScore :=
    (numberOfNat (Nat.min 4 selectedPoolCount) / 4)%float in
  (0.55 * lengthScore + 0.45 * varietyScore)%float.

Definition strengthLabel (score : float) : string :=
  if (0.7 <=? score)%float then "Strong"
  else if (0.45 <=? score)%float then "Medium"
  else "Weak".

(** The text shown for an empty password, an em dash. *)
Definition noStrengthText : string := "—".

Definition setStrength (password : string) (selectedPoolCount : nat)
    (pg : page) : page :=
  let shown :=
    if (String.length password =? 0)%nat then (noStrengthText, RInt 0)
    else
      let score := strengthScore password selectedPoolCount in
      (strengthLabel score, Math_round (score * 100)%float) in
  {| optUpper := optUpper pg; optLower := optLower pg;
     optNumbers := optNumbers pg; optSymbols := optSymbols pg;
     lengthSlider := lengthSlider pg; lengthValue := lengthValue pg;
     passwordOutput := passwordOutput pg;
     statusMsg := statusMsg pg;
     statusIsError := statusIsError pg;
     statusIsSuccess := statusIsSuccess pg;
     strengthText := shown.1;
     strengthBarWidth := shown.2 |}.

Definition setOutput (value : string) (pg : page) : page :=
  {| optUpper := optUpper pg; optLower := optLower pg;
     optNumbers := optNumbers pg; optSymbols := optSymbols pg;
     lengthSlider := lengthSlider pg; lengthValue := lengthValue pg;
     passwordOutput := value;
     statusMsg := statusMsg pg;
     statusIsError := statusIsError pg;
     statusIsSuccess := statusIsSuccess pg;
     strengthText := strengthText pg;
     strengthBarWidth := strengthBarWidth pg |}.

Definition readLength (pg : page) : Z := lengthSlider pg.

Definition updateLengthUI (pg : page) : page :=
  {| optUpper := optUpper pg; optLower := optLower pg;
     optNumbers := optNumbers pg; optSymbols := optSymbols pg;
     lengthSlider := lengthSlider pg; lengthValue := readLength pg;
     passwordOutput := passwordOutput pg;
     statusMsg := statusMsg pg;
     statusIsError := statusIsError pg;
     statusIsSuccess := statusIsSuccess pg;
     strengthText := strengthText pg;
     strengthBarWidth := strengthBarWidth pg |}.

Definition updateStrengthUI (pg : page) : page :=
  let options := getSelectedOptions pg in
  let poolCount := length (buildPools options) in
  setStrength (passwordOutput pg) poolCount pg.

Definition generatedMessage : string := "Password generated.".

Definition doGenerate (env : platform) (fuel : nat) (silent : bool)
    (pg : page) : M page :=
  let length := readLength pg in
  let options := getSelectedOptions pg in
  let* r := generatePassword env fuel length options in
  if negb (String.length (error r) =? 0)%nat then
    let pg := setOutput "" pg in
    let pg := setStrength "" 0 pg in
    let pg := if negb silent then showStatus (error r) (Some "error") pg
              else pg in
    ret pg
  else
    let pg := setOutput (password r) pg in
    let pg := showStatus generatedMessage (Some "success") pg in
    ret (updateStrengthUI pg).

(** The listeners of [wireUI]: the slider was moved to [value], a checkbox
    was set, the generate button was clicked. *)
Definition onSliderInput (env : platform) (fuel : nat) (value : Z)
    (pg : page) : M page :=
  let pg :=
    {| optUpper := optUpper pg; optLower := optLower pg;
       optNumbers := optNumbers pg; optSymbols := optSymbols pg;
       lengthSlider := value; lengthValue := lengthValue pg;
       passwordOutput := passwordOutput pg;
       statusMsg := statusMsg pg;
       statusIsError := statusIsError pg;
       statusIsSuccess := statusIsSuccess pg;
       strengthText := strengthText pg;
       strengthBarWidth := strengthBarWidth pg |} in
  doGenerate env fuel true (updateLengthUI pg).

Definition onOptionChange (checked : options) (pg : page) : page :=
  let pg :=
    {| optUpper := upper checked; optLower := lower checked;
       optNumbers := numbers checked; optSymbols := symbols checked;
       lengthSlider := lengthSlider pg; lengthValue := lengthValue pg;
       passwordOutput := passwordOutput pg;
       statusMsg := statusMsg pg;
       statusIsError := statusIsError pg;
       statusIsSuccess := statusIsSuccess pg;
       strengthText := strengthText pg;
       strengthBarWidth := strengthBarWidth pg |} in
  updateStrengthUI (showStatus "" None pg).

Definition onGenerateClick (env : platform) (fuel : nat) (pg : page)
    : M page :=
  doGenerate env fuel false pg.

(** * Vocabulary of the properties *)

(** The limit the specification gives for the rejection test. *)
Definition specLimit (maxExclusive : Z) : Z :=
  2 ^ 32 - 2 ^ 32 mod maxExclusive.

(** The characters of a string, as a list. *)
Abbreviation chars_of := list_ascii_of_string.

(** An array without [undefined] elements. *)
Definition defined (array : jsarray) : Prop := Forall is_Some array.

(** The fallback generator stays inside the requested range: the floor of a
    product of a number in [0, 1) with a positive integer.  The secure path
    needs no assumption. *)
Definition in_range (env : platform) : Prop :=
  match env with
  | WithCrypto _ => True
  | NoCrypto mathRandomFloor =>
      ∀ p m, 0 < m → 0 ≤ mathRandomFloor p m < m
  end.

(** [c] is a character read from [pool]. *)
Definition picked (pool : string) (c : option ascii) : Prop :=
  ∃ ch, c = Some ch ∧ ch ∈ chars_of pool.

(** A successful composition: one pick per pool, in the order of the pools,
    then picks from the combined pool up to the requested length, then a
    permutation of the whole. *)
Definition composed (len : Z) (pools : list string) (r : result) : Prop :=
  ∃ picks fills shuffled : jsarray,
    Forall2 picked pools picks
    ∧ Forall (picked (str_join pools)) fills
    ∧ Z.of_nat (length (picks ++ fills)) = len
    ∧ shuffled ≡ₚ picks ++ fills
    ∧ r = {| password := arr_join shuffled; error := "" |}.

(** A stream of draws is fair when, from every position on and for every
    bound a 32-bit draw can serve, some later draw passes the rejection test;
    a uniformly random stream is fair with probability one.  The fallback
    path has no loop. *)
Definition fair (env : platform) : Prop :=
  match env with
  | WithCrypto s =>
      ∀ m p, 0 < m < 2 ^ 32 → ∃ k, drawn s (p + k) < limitOf m
  | NoCrypto _ => True
  end.

(** [run], given enough iterations of the rejection loop, returns [a] and
    leaves the counter of draws at [p']. *)
Definition returns {A} (run : nat → M A) (p : nat) (a : A) (p' : nat) : Prop :=
  ∃ f0, ∀ fuel, (f0 ≤ fuel)%nat → run fuel p = Done a p'.

(** The classes of the specification, in its canonical order, and what the
    source binds to each: a key of [CHARSETS] and a flag of the options. *)
Inductive CharacterClass : Type := Upper | Lower | Digit | Symbol.

Global Instance CharacterClass_eq_dec : EqDecision CharacterClass.
Proof. solve_decision. Defined.

Definition canonicalOrder : list CharacterClass := [Upper; Lower; Digit; Symbol].

Definition poolOf (c : CharacterClass) : string :=
  match c with
  | Upper => CHARSETS.upper
  | Lower => CHARSETS.lower
  | Digit => CHARSETS.numbers
  | Symbol => CHARSETS.symbols
  end.

Definition enabled (o : options) (c : CharacterClass) : bool :=
  match c with
  | Upper => upper o
  | Lower => lower o
  | Digit => numbers o
  | Symbol => symbols o
  end.

(** The pool builder in the words of the specification: one pool per enabled
    class, in the canonical order. *)
Definition specPools (o : options) : list string :=
  poolOf <$> filter (λ c, enabled o c = true) canonicalOrder.

(** At least one class is selected and there is room for one character of
    each selected class. *)
Definition valid_request (len : Z) (o : options) : Prop :=
  buildPools o ≠ [] ∧ Z.of_nat (length (buildPools o)) ≤ len.

(** The error kinds of the specification and the message by which the code
    reports each. *)
Inductive ErrorKind : Type :=
| NoCharacterClassSelected
| LengthTooShortForSelection (minimum : nat).

Definition messageOf (kind : ErrorKind) : string :=
  match kind with
  | NoCharacterClassSelected => noOptionMessage
  | LengthTooShortForSelection minimum => tooShortMessage minimum
  end.

(** The number of selected classes. *)
Definition selectedCount (o : options) : nat :=
  length (filter (λ c, enabled o c = true) canonicalOrder).

(** The shuffle in the words of the specification: the buffer with the
    elements at positions [i] and [j] exchanged, and the walk of [i] from
    [length - 1] down to 1 drawing [j = uniformInt(i + 1)] at each step. *)
Definition swap_positions (buffer : jsarray) (i j : nat) : jsarray :=
  imap (λ k x, if decide (k = i) then default x (buffer !! j)
               else if decide (k = j) then default x (buffer !! i)
               else x) buffer.

Fixpoint fisherYates_steps (env : platform) (fuel : nat) (indices : list nat)
    (buffer : jsarray) : M jsarray :=
  match indices with
  | [] => ret buffer
  | i :: rest =>
      let* j := secureRandomInt env fuel (Z.of_nat i + 1) in
      fisherYates_steps env fuel rest (swap_positions buffer i (Z.to_nat j))
  end.

Definition specShuffle (env : platform) (fuel : nat) (buffer : jsarray)
    : M jsarray :=
  fisherYates_steps env fuel (reverse (seq 1 (length buffer - 1))) buffer.

(** The claim of the specification: something a caller receives tells the
    fallback path from the secure one. *)
Definition fallback_detectable : Prop :=
  ∃ detect : outcome Z → bool,
    ∀ s r fuel m p,
      0 < m →
      detect (secureRandomInt (WithCrypto s) fuel m p) = true
      ∧ detect (secureRandomInt (NoCrypto r) fuel m p) = false.

(** A run from counter [p] to counter [p'] read at least [n] random values,
    and exactly [n] on the fallback platform, which never rejects. *)
Definition reads (env : platform) (p p' n : nat) : Prop :=
  (p + n ≤ p')%nat
  ∧ match env with
    | WithCrypto _ => True
    | NoCrypto _ => p' = (p + n)%nat
    end.

(** What the strength display shows for a password and a number of selected
    classes. *)
Definition strengthShown (password : string) (selectedPoolCount : nat)
    : string * rounded :=
  let pg := setStrength password selectedPoolCount
              (Page false false false false 0 0 "" "" false false "" RNaN) in
  (strengthText pg, strengthBarWidth pg).

(** The score of a password of [n <= 32] characters with [k <= 4] classes,
    and what is shown for it. *)
Definition gridScore (n k : nat) : float :=
  (0.55 * (numberOfNat n / 32) + 0.45 * (numberOfNat k / 4))%float.

Definition gridShown (n k : nat) : string * rounded :=
  (strengthLabel (gridScore n k), Math_round (gridScore n k * 100)%float).

(** The number of percent of a bar width. *)
Definition percentOf (width : rounded) : Z :=
  match width with RInt n => n | _ => 0 end.

(** The order of the three labels. *)
Definition labelRank (label : string) : nat :=
  if decide (label = "Strong") then 2
  else if decide (label = "Medium") then 1 else 0.

(** The bar shows a whole number of percent and the label can be read off
    it. *)
Definition ratedByBar (shown : string * rounded) : Prop :=
  match shown.2 with
  | RInt pct =>
      2 ≤ pct ≤ 100
      ∧ (shown.1 = "Strong" ↔ 71 ≤ pct)
      ∧ (shown.1 = "Medium" ↔ 46 ≤ pct ≤ 70)
      ∧ (shown.1 = "Weak" ↔ pct ≤ 45)
  | _ => False
  end.

Global Instance ratedByBar_dec shown : Decision (ratedByBar shown).
Proof. unfold ratedByBar. destruct (shown.2); apply _. Defined.

(** The strength display rates the displayed password against the boxes
    that are checked. *)
Definition strengthAgrees (pg : page) : Prop :=
  (strengthText pg, strengthBarWidth pg)
  = strengthShown (passwordOutput pg)
      (length (buildPools (getSelectedOptions pg))).

Definition samplePage : page :=
  {| optUpper := true; optLower := true; optNumbers := true;
     optSymbols := true; lengthSlider := 8; lengthValue := 8;
     passwordOutput := ""; statusMsg := ""; statusIsError := false;
     statusIsSuccess := false; strengthText := noStrengthText;
     strengthBarWidth := RInt 0 |}.

(** The stream [s] holds the values [js] from position [p] on. *)
Definition agrees (s : nat → Z) (p : nat) (js : list Z) : Prop :=
  ∀ k j, js !! k = Some j → s (p + k)%nat = j.

(** * Properties *)

(** ** Sample runs *)

Example run_upper4 :
  generatePassword zeros 1 4 (Options true false false false) 0%nat
  = Done {| password := "AAAA"; error := "" |} 7.
Proof. reflexivity. Qed.

Example run_all8 :
  generatePassword counting 1 8 (Options true true true true) 0%nat
  = Done {| password := "p+>.<8?A"; error := "" |} 15.
Proof. vm_compute. reflexivity. Qed.

(** ** Monad inversion *)

Lemma bind_Done {A B} (m : M A) (k : A → M B) p b p'' :
  bind m k p = Done b p'' ↔ ∃ a p', m p = Done a p' ∧ k a p' = Done b p''.
Proof.
  unfold bind. split.
  - destruct (m p) as [a p'| |]; [eauto | discriminate | discriminate].
  - intros (a & p' & -> & Hk). exact Hk.
Qed.

Lemma bind_Thrown {A B} (m : M A) (k : A → M B) p msg :
  bind m k p = Thrown msg ↔
  m p = Thrown msg ∨ ∃ a p', m p = Done a p' ∧ k a p' = Thrown msg.
Proof.
  unfold bind. split.
  - destruct (m p) as [a p'| |]; [eauto | | discriminate].
    intros [= ->]. by left.
  - intros [-> | (a & p' & -> & Hk)]; done.
Qed.

(** ** The random source *)

Lemma drawn_range s p : 0 ≤ drawn s p < 2 ^ 32.
Proof. unfold drawn. apply Z.mod_pos_bound. lia. Qed.

Lemma rem_range v m : 0 ≤ v → 0 < m → 0 ≤ Z.rem v m < m.
Proof. intros Hv Hm. rewrite Z.rem_mod_nonneg by lia. apply Z.mod_pos_bound. lia. Qed.

(** The limit of the code is the largest multiple of the bound that is at most
    2^32 - 1. *)
Lemma limitOf_multiple m : 0 < m → limitOf m = m * (uint32Max / m).
Proof.
  intros Hm. unfold limitOf, uint32Max.
  rewrite Z.rem_mod_nonneg by lia.
  pose proof (Z.div_mod 4294967295 m). lia.
Qed.

Lemma limitOf_pos m : 0 < m < 2 ^ 32 → m ≤ limitOf m.
Proof.
  intros Hm. rewrite limitOf_multiple by lia.
  assert (1 ≤ uint32Max / m); [| nia].
  apply Z.div_le_lower_bound; unfold uint32Max; lia.
Qed.

(** It is the limit of the specification except for the bounds that divide
    2^32, where it is one multiple lower. *)
Lemma limitOf_specLimit m :
  0 < m →
  limitOf m = if decide (2 ^ 32 mod m = 0) then 2 ^ 32 - m else specLimit m.
Proof.
  intros Hm. unfold limitOf, specLimit, uint32Max.
  rewrite Z.rem_mod_nonneg by lia.
  change (2 ^ 32) with 4294967296.
  pose proof (Z.div_mod 4294967296 m).
  pose proof (Z.mod_pos_bound 4294967296 m Hm).
  case_decide as Hd.
  - symmetry. assert (4294967295 mod m = m - 1); [| lia].
    symmetry. apply (Z.mod_unique_pos _ _ (4294967296 / m - 1)); lia.
  - assert (4294967295 mod m = 4294967296 mod m - 1); [| lia].
    symmetry. apply (Z.mod_unique_pos _ _ (4294967296 / m)); lia.
Qed.

(** The loop returns at the first draw below the limit. *)
Lemma rejection_loop_first s limit m k :
  ∀ n p,
    (∀ j, (j < k)%nat → limit ≤ drawn s (p + j)) →
    drawn s (p + k) < limit →
    (k < n)%nat →
    rejection_loop n s limit m p = Done (Z.rem (drawn s (p + k)) m) (S (p + k)).
Proof.
  induction k as [|k IH]; intros n p Hrej Hacc Hn.
  - destruct n as [|n]; [lia |]. simpl.
    rewrite Nat.add_0_r in *.
    by rewrite (proj2 (Z.ltb_lt _ _) Hacc).
  - destruct n as [|n]; [lia |]. simpl.
    pose proof (Hrej 0%nat ltac:(lia)) as H0. rewrite Nat.add_0_r in H0.
    rewrite (proj2 (Z.ltb_ge _ _) H0).
    rewrite (IH n (S p)).
    + by replace (S p + k)%nat with (p + S k)%nat by lia.
    + intros j Hj. replace (S p + j)%nat with (p + S j)%nat by lia.
      apply Hrej. lia.
    + by replace (S p + k)%nat with (p + S k)%nat by lia.
    + lia.
Qed.

(** Whenever the loop returns it returns the remainder of an accepted draw,
    after rejecting the draws before it. *)
Lemma rejection_loop_Done s limit m :
  ∀ n p v p',
    rejection_loop n s limit m p = Done v p' →
    ∃ k, (k < n)%nat ∧ p' = S (p + k) ∧ v = Z.rem (drawn s (p + k)) m ∧
         drawn s (p + k) < limit ∧
         ∀ j, (j < k)%nat → limit ≤ drawn s (p + j).
Proof.
  induction n as [|n IH]; intros p v p' H; [discriminate |].
  simpl in H. destruct (drawn s p <? limit) eqn:Hlt.
  - injection H as <- <-. exists 0%nat. rewrite Nat.add_0_r.
    apply Z.ltb_lt in Hlt. repeat split; [lia | done | lia].
  - apply IH in H as (k & Hk & -> & -> & Hacc & Hrej).
    apply Z.ltb_ge in Hlt.
    exists (S k). replace (p + S k)%nat with (S p + k)%nat by lia.
    repeat split; [lia | done |].
    intros [|j] Hj; [by rewrite Nat.add_0_r |].
    replace (p + S j)%nat with (S p + j)%nat by lia. apply Hrej. lia.
Qed.

Lemma rejection_loop_not_Thrown s limit m :
  ∀ n p msg, rejection_loop n s limit m p ≠ Thrown msg.
Proof.
  induction n as [|n IH]; intros p msg; simpl; [done |].
  destruct (_ <? _); [done | apply IH].
Qed.

(** C1, as amended: for every positive bound and every stream of unsigned
    32-bit draws, the random source returns [value mod maxExclusive] for the
    first drawn value below [limit = (2^32 - 1) - ((2^32 - 1) mod maxExclusive)]
    and discards the draws before it; the result lies in [0, maxExclusive).
    This limit is the one of the specification, 2^32 - (2^32 mod maxExclusive),
    unless maxExclusive divides 2^32, where it is 2^32 - maxExclusive. *)
Theorem secureRandomInt_rejection_sampling s maxExclusive p k fuel :
  0 < maxExclusive →
  (∀ j, (j < k)%nat → limitOf maxExclusive ≤ drawn s (p + j)) →
  drawn s (p + k) < limitOf maxExclusive →
  (k < fuel)%nat →
  secureRandomInt (WithCrypto s) fuel maxExclusive p
    = Done (drawn s (p + k) mod maxExclusive) (S (p + k))
  ∧ 0 ≤ drawn s (p + k) mod maxExclusive < maxExclusive
  ∧ limitOf maxExclusive
    = (2 ^ 32 - 1) - (2 ^ 32 - 1) mod maxExclusive
  ∧ limitOf maxExclusive
    = if decide (2 ^ 32 mod maxExclusive = 0) then 2 ^ 32 - maxExclusive
      else specLimit maxExclusive.
Proof.
  intros Hm Hrej Hacc Hk. split; [| split; [| split]].
  - unfold secureRandomInt.
    rewrite (proj2 (Z.leb_gt _ _) Hm).
    rewrite (rejection_loop_first s _ _ k) by done.
    f_equal. apply Z.rem_mod_nonneg; [apply drawn_range | lia].
  - apply Z.mod_pos_bound. lia.
  - unfold limitOf, uint32Max. rewrite Z.rem_mod_nonneg by lia. done.
  - by apply limitOf_specLimit.
Qed.

Lemma secureRandomInt_rejection_sampling_witness :
  secureRandomInt (WithCrypto topThenOne) 2 2 0%nat = Done 1 2.
Proof.
  pose proof (secureRandomInt_rejection_sampling topThenOne 2 0%nat 1%nat 2%nat)
    as H.
  destruct H as [H _].
  - lia.
  - intros j Hj. assert (j = 0%nat) as -> by lia. vm_compute. discriminate.
  - vm_compute. reflexivity.
  - lia.
  - exact H.
Defined.

(** C1 as the specification states it fails for a bound that divides 2^32:
    with bound 2 the draw 4294967294 is below the specified limit 2^32, so
    the specification returns 0 after one draw, and the code rejects it and
    returns the remainder of the second draw. *)
Lemma secureRandomInt_specLimit_counterexample :
  0 < 2
  ∧ drawn topThenOne 0 < specLimit 2
  ∧ (∀ fuel, secureRandomInt (WithCrypto topThenOne) fuel 2 0%nat
             ≠ Done (drawn topThenOne 0 mod 2) 1)
  ∧ secureRandomInt (WithCrypto topThenOne) 2 2 0%nat = Done 1 2.
Proof.
  split; [lia |]. split; [by vm_compute |]. split; [| reflexivity].
  intros [|[|fuel]]; by vm_compute.
Qed.

(** ** Strings and arrays *)

Lemma get_chars_of s : ∀ n, String.get n s = chars_of s !! n.
Proof. induction s as [|c s IH]; intros [|n]; simpl; auto. Qed.

Lemma length_chars_of s : length (chars_of s) = String.length s.
Proof. induction s as [|c s IH]; simpl; auto. Qed.

Lemma chars_of_append s t : chars_of (String.append s t) = chars_of s ++ chars_of t.
Proof. induction s as [|c s IH]; simpl; [done | by rewrite IH]. Qed.

Lemma chars_of_str_join pools :
  chars_of (str_join pools) = mjoin (chars_of <$> pools).
Proof.
  induction pools as [|pool pools IH]; csimpl; [done |].
  by rewrite chars_of_append, IH.
Qed.

(** An in-range index reads a character of the string. *)
Lemma str_at_in_range str i :
  0 ≤ i < Z.of_nat (String.length str) →
  ∃ ch, str_at str i = Some ch ∧ ch ∈ chars_of str.
Proof.
  intros Hi. unfold str_at.
  rewrite (proj2 (Z.ltb_ge _ _)) by lia.
  rewrite get_chars_of.
  destruct (lookup_lt_is_Some_2 (chars_of str) (Z.to_nat i)) as [ch Hch].
  { rewrite length_chars_of. lia. }
  exists ch. split; [done |]. by eapply list_elem_of_lookup_2.
Qed.

(** The characters of [array.join("")] are the defined elements, in order. *)
Lemma chars_of_arr_join array : chars_of (arr_join array) = omap id array.
Proof.
  induction array as [|[c|] array IH]; csimpl; [done | | done].
  by rewrite IH.
Qed.

Lemma omap_id_Some (l : list ascii) : omap id (Some <$> l) = l.
Proof. induction l as [|c l IH]; csimpl; [done | by rewrite IH]. Qed.

Lemma defined_fmap array : defined array → ∃ l, array = Some <$> l.
Proof.
  induction 1 as [|x array [c ->] _ [l ->]]; [by exists [] |].
  by exists (c :: l).
Qed.

Lemma length_arr_join array :
  defined array → String.length (arr_join array) = length array.
Proof.
  intros [l ->]%defined_fmap.
  by rewrite <- length_chars_of, chars_of_arr_join, omap_id_Some, length_fmap.
Qed.

Lemma elem_of_arr_join array c :
  c ∈ chars_of (arr_join array) ↔ Some c ∈ array.
Proof.
  rewrite chars_of_arr_join, list_elem_of_omap. split.
  - intros (x & Hx & Hc). simpl in Hc. by subst.
  - intros Hc. by exists (Some c).
Qed.

(** Reading and writing inside the array. *)
Lemma arr_get_lookup (array : jsarray) (i : nat) x :
  array !! i = Some x → arr_get array (Z.of_nat i) = x.
Proof.
  intros Hx. unfold arr_get.
  rewrite (proj2 (Z.ltb_ge _ _)) by lia.
  by rewrite Nat2Z.id, Hx.
Qed.

Lemma arr_set_insert (array : jsarray) (i : nat) v :
  (i < length array)%nat →
  Z.of_nat (length array) ≤ maxArrayLength →
  arr_set array (Z.of_nat i) v = <[i := v]> array.
Proof.
  intros Hi Hmax. unfold arr_set.
  rewrite (proj2 (Z.ltb_ge _ _)) by lia.
  rewrite (proj2 (Z.leb_gt _ _)) by lia. simpl.
  rewrite (proj2 (Z.ltb_lt _ _)) by lia.
  by rewrite Nat2Z.id.
Qed.

(** The destructuring swap of [shuffleInPlace], for two indices inside the
    array, is a pair of updates with the two elements exchanged. *)
Lemma swap_inserts (array : jsarray) (i j : nat) xi xj :
  array !! i = Some xi →
  array !! j = Some xj →
  Z.of_nat (length array) ≤ maxArrayLength →
  arr_set (arr_set array (Z.of_nat i) (arr_get array (Z.of_nat j)))
          (Z.of_nat j) (arr_get array (Z.of_nat i))
  = <[j := xi]> (<[i := xj]> array).
Proof.
  intros Hi Hj Hmax.
  rewrite (arr_get_lookup _ _ _ Hi), (arr_get_lookup _ _ _ Hj).
  apply lookup_lt_Some in Hi as Hi'. apply lookup_lt_Some in Hj as Hj'.
  rewrite (arr_set_insert array) by done.
  by rewrite arr_set_insert by (by rewrite length_insert).
Qed.

(** ** What a returning run of each operation guarantees *)

Lemma picked_is_Some pool c : picked pool c → is_Some c.
Proof. intros (ch & -> & _). by eexists. Qed.

Section Partial.
Context (env : platform) (fuel : nat).

(** The bound is positive whenever the call returns at all. *)
Lemma secureRandomInt_Done_pos m p v p' :
  secureRandomInt env fuel m p = Done v p' → 0 < m.
Proof.
  unfold secureRandomInt. destruct (m <=? 0) eqn:Hm; [discriminate |].
  intros _. by apply Z.leb_gt.
Qed.

Lemma secureRandomInt_Thrown m p msg :
  secureRandomInt env fuel m p = Thrown msg →
  m ≤ 0 ∧ msg = "maxExclusive must be a positive integer".
Proof.
  unfold secureRandomInt. destruct (m <=? 0) eqn:Hm.
  - intros [= <-]. split; [by apply Z.leb_le | done].
  - destruct env as [s|r]; [| discriminate].
    intros H. by apply rejection_loop_not_Thrown in H.
Qed.

Context (Hrange : in_range env).

Lemma secureRandomInt_Done m p v p' :
  secureRandomInt env fuel m p = Done v p' → 0 ≤ v < m.
Proof.
  intros H. pose proof (secureRandomInt_Done_pos _ _ _ _ H) as Hm.
  revert H. unfold secureRandomInt.
  rewrite (proj2 (Z.leb_gt _ _) Hm).
  destruct env as [s|r].
  - intros (k & _ & _ & -> & _)%rejection_loop_Done.
    apply rem_range; [apply drawn_range | done].
  - intros [= <- _]. by apply Hrange.
Qed.

Lemma pickOne_Done str p c p' :
  pickOne env fuel str p = Done c p' → picked str c.
Proof.
  unfold pickOne. intros (i & p1 & Hi & [= <- _])%bind_Done.
  apply secureRandomInt_Done in Hi.
  by apply str_at_in_range.
Qed.

Lemma map_pickOne_Done pools :
  ∀ p chars p',
    map_pickOne env fuel pools p = Done chars p' →
    Forall2 picked pools chars.
Proof.
  induction pools as [|pool pools IH]; intros p chars p'; simpl.
  - intros [= <- _]. constructor.
  - intros (c & p1 & Hc & (cs & p2 & Hcs & [= <- _])%bind_Done)%bind_Done.
    constructor; [by eapply pickOne_Done | by eapply IH].
Qed.

(** The fill loop appends picks from the combined pool until the array has
    [len] elements, and never lets it pass the largest array length. *)
Lemma fill_loop_Done len combinedPool :
  ∀ n chars p chars' p',
    fill_loop env fuel n len combinedPool chars p = Done chars' p' →
    ∃ fills, chars' = chars ++ fills
             ∧ Forall (picked combinedPool) fills
             ∧ Z.of_nat (length chars') = Z.max len (Z.of_nat (length chars))
             ∧ (fills ≠ [] → Z.of_nat (length chars') ≤ maxArrayLength).
Proof.
  induction n as [|n IH]; intros chars p chars' p'; simpl;
    destruct (Z.of_nat (length chars) <? len) eqn:Hlt.
  - discriminate.
  - intros [= <- _]. apply Z.ltb_ge in Hlt.
    exists []. rewrite app_nil_r. repeat split; [constructor | lia | done].
  - intros (c & p1 & Hc & (chars1 & p2 & Hpush & Hrest)%bind_Done)%bind_Done.
    unfold arr_push in Hpush.
    destruct (Z.of_nat (length chars) <? maxArrayLength) eqn:Hroom;
      [| discriminate].
    injection Hpush as <- <-.
    apply IH in Hrest as (fills & -> & Hfills & Hlen & Hmax).
    apply Z.ltb_lt in Hlt. apply Z.ltb_lt in Hroom.
    rewrite length_app in Hlen. simpl in Hlen.
    exists (c :: fills). rewrite <- app_assoc. simpl.
    repeat split.
    + constructor; [by eapply pickOne_Done | done].
    + rewrite !length_app in *. simpl in *. lia.
    + intros _. destruct fills as [|c' fills].
      * rewrite length_app. simpl. lia.
      * rewrite <- app_assoc in Hmax. simpl in Hmax.
        by apply Hmax.
  - intros [= <- _]. apply Z.ltb_ge in Hlt.
    exists []. rewrite app_nil_r. repeat split; [constructor | lia | done].
Qed.

(** The shuffle permutes the array. *)
Lemma shuffle_from_Done :
  ∀ i (array : jsarray) p array' p',
    (i < length array)%nat →
    Z.of_nat (length array) ≤ maxArrayLength →
    shuffle_from env fuel i array p = Done array' p' →
    array' ≡ₚ array.
Proof.
  induction i as [|i IH]; intros array p array' p' Hi Hmax; simpl.
  - by intros [= <- _].
  - intros (j & p1 & Hj & Hrest)%bind_Done.
    apply secureRandomInt_Done in Hj.
    destruct (lookup_lt_is_Some_2 array (S i) Hi) as [xi Hxi].
    destruct (lookup_lt_is_Some_2 array (Z.to_nat j) ltac:(lia)) as [xj Hxj].
    replace (Z.pos (Pos.of_succ_nat i)) with (Z.of_nat (S i)) in Hrest by lia.
    replace j with (Z.of_nat (Z.to_nat j)) in Hrest by lia.
    rewrite (swap_inserts array _ _ xi xj) in Hrest by done.
    apply IH in Hrest.
    + rewrite Hrest. by apply Permutation_insert_swap.
    + rewrite !length_insert. lia.
    + by rewrite !length_insert.
Qed.

Lemma shuffleInPlace_Done (array : jsarray) p array' p' :
  Z.of_nat (length array) ≤ maxArrayLength →
  shuffleInPlace env fuel array p = Done array' p' →
  array' ≡ₚ array.
Proof.
  intros Hmax. unfold shuffleInPlace.
  destruct array as [|x array]; [by intros [= <- _] |].
  apply shuffle_from_Done; [simpl; lia | done].
Qed.
End Partial.

(** ** The pools *)

Lemma buildPools_cases o :
  buildPools o =
    (if upper o then [CHARSETS.upper] else [])
    ++ (if lower o then [CHARSETS.lower] else [])
    ++ (if numbers o then [CHARSETS.numbers] else [])
    ++ (if symbols o then [CHARSETS.symbols] else []).
Proof. by destruct o as [[] [] [] []]. Qed.

Lemma buildPools_nonempty_pools o :
  Forall (λ pool, (0 < String.length pool)%nat) (buildPools o).
Proof.
  destruct o as [[] [] [] []]; unfold buildPools; simpl;
    repeat constructor; simpl; lia.
Qed.

Lemma buildPools_length o : (length (buildPools o) ≤ 4)%nat.
Proof. destruct o as [[] [] [] []]; unfold buildPools; simpl; lia. Qed.

Lemma str_join_nonempty pools :
  pools ≠ [] →
  Forall (λ pool, (0 < String.length pool)%nat) pools →
  (0 < String.length (str_join pools))%nat.
Proof.
  intros Hne Hall. destruct Hall as [|pool pools Hpool _]; [done |].
  simpl. rewrite <- length_chars_of, chars_of_append, length_app.
  rewrite length_chars_of. lia.
Qed.

Lemma combinedPool_nonempty o :
  buildPools o ≠ [] → (0 < String.length (str_join (buildPools o)))%nat.
Proof. intros H. by apply str_join_nonempty, buildPools_nonempty_pools. Qed.

(** A character of the combined pool is a character of one of the pools. *)
Lemma elem_of_str_join pools ch :
  ch ∈ chars_of (str_join pools) ↔ ∃ pool, pool ∈ pools ∧ ch ∈ chars_of pool.
Proof.
  rewrite chars_of_str_join, list_elem_of_join. split.
  - intros (l & Hch & (pool & -> & Hpool)%list_elem_of_fmap). eauto.
  - intros (pool & Hpool & Hch). exists (chars_of pool).
    split; [done |]. apply list_elem_of_fmap. eauto.
Qed.

(** ** The three ways [generatePassword] returns *)

Lemma generatePassword_Done env fuel len o p r p' :
  in_range env →
  generatePassword env fuel len o p = Done r p' →
  (buildPools o = []
   ∧ r = {| password := ""; error := noOptionMessage |} ∧ p' = p)
  ∨ (buildPools o ≠ [] ∧ len < Z.of_nat (length (buildPools o))
     ∧ r = {| password := "";
              error := tooShortMessage (length (buildPools o)) |}
     ∧ p' = p)
  ∨ (buildPools o ≠ [] ∧ Z.of_nat (length (buildPools o)) ≤ len
     ∧ composed len (buildPools o) r).
Proof.
  intros Hrange. unfold generatePassword.
  destruct (buildPools o) as [|pool pools] eqn:Hpools.
  { intros [= <- <-]. by left. }
  right. revert H. rewrite <- Hpools.
  assert (buildPools o ≠ []) as Hne by (by rewrite Hpools).
  replace (length (buildPools o) =? 0)%nat with false
    by (by rewrite Hpools).
  destruct (len <? Z.of_nat (length (buildPools o))) eqn:Hlen.
  { intros [= <- <-]. left. by apply Z.ltb_lt in Hlen. }
  right. apply Z.ltb_ge in Hlen.
  apply bind_Done in H as (picks & p1 & Hpicks & H).
  pose proof (combinedPool_nonempty o Hne) as Hcomb.
  destruct (String.length (str_join (buildPools o))) as [|n] eqn:Hn; [lia |].
  simpl in H.
  apply bind_Done in H as (chars & p2 & Hfill & H).
  apply bind_Done in H as (shuffled & p3 & Hshuffle & [= <- _]).
  apply map_pickOne_Done in Hpicks; [| done].
  apply fill_loop_Done in Hfill as (fills & -> & Hfills & Hlength & Hmax);
    [| done].
  pose proof (Forall2_length _ _ _ Hpicks) as Hpl.
  pose proof (buildPools_length o) as H4.
  apply shuffleInPlace_Done in Hshuffle; [| done |].
  - do 2 (split; [done |]).
    exists picks, fills, shuffled. repeat split; try done. lia.
  - destruct fills as [|c fills]; [| by apply Hmax].
    rewrite app_nil_r. unfold maxArrayLength. lia.
Qed.

(** ** Termination *)

Lemma returns_ret {A} (a : A) p : returns (λ _, ret a) p a p.
Proof. by exists 0%nat. Qed.

Lemma returns_bind {A B} (m : nat → M A) (k : nat → A → M B) p a p' b p'' :
  returns m p a p' →
  returns (λ fuel, k fuel a) p' b p'' →
  returns (λ fuel, bind (m fuel) (k fuel)) p b p''.
Proof.
  intros [f1 H1] [f2 H2]. exists (f1 `max` f2)%nat. intros fuel Hf.
  unfold bind. rewrite H1 by lia. apply H2. lia.
Qed.

Lemma returns_run {A} (run : nat → M A) p a p' :
  returns run p a p' → ∃ fuel, run fuel p = Done a p'.
Proof. intros [f0 H]. exists f0. by apply H. Qed.

Lemma rejection_loop_returns s limit m k :
  ∀ p, drawn s (p + k) < limit →
       ∃ v p', ∀ n, (k < n)%nat → rejection_loop n s limit m p = Done v p'.
Proof.
  induction k as [|k IH]; intros p Hacc.
  - rewrite Nat.add_0_r in Hacc. eexists _, _. intros [|n] Hn; [lia |].
    simpl. by rewrite (proj2 (Z.ltb_lt _ _) Hacc).
  - destruct (drawn s p <? limit) eqn:Hlt.
    + eexists _, _. intros [|n] Hn; [lia |]. simpl. by rewrite Hlt.
    + destruct (IH (S p)) as (v & p' & Hrun).
      { by replace (S p + k)%nat with (p + S k)%nat by lia. }
      exists v, p'. intros [|n] Hn; [lia |]. simpl. rewrite Hlt.
      apply Hrun. lia.
Qed.

Section Total.
Context (env : platform) (Hfair : fair env).

Lemma secureRandomInt_returns m p :
  0 < m < 2 ^ 32 →
  ∃ v p', returns (λ fuel, secureRandomInt env fuel m) p v p'.
Proof.
  intros Hm. unfold returns, secureRandomInt.
  rewrite (proj2 (Z.leb_gt _ _)) by lia.
  destruct env as [s|r].
  - destruct (Hfair m p Hm) as [k Hk].
    destruct (rejection_loop_returns s _ m k p Hk) as (v & p' & Hrun).
    exists v, p', (S k). intros fuel Hf. apply Hrun. lia.
  - by exists (r p m), (S p), 0%nat.
Qed.

Lemma pickOne_returns str p :
  0 < Z.of_nat (String.length str) < 2 ^ 32 →
  ∃ c p', returns (λ fuel, pickOne env fuel str) p c p'.
Proof.
  intros Hlen.
  destruct (secureRandomInt_returns _ p Hlen) as (i & p' & Hi).
  exists (str_at str i), p'. unfold pickOne.
  eapply (returns_bind _ (λ _ i, ret (str_at str i))); [exact Hi |].
  apply returns_ret.
Qed.

Lemma map_pickOne_returns pools :
  Forall (λ pool, 0 < Z.of_nat (String.length pool) < 2 ^ 32) pools →
  ∀ p, ∃ chars p', returns (λ fuel, map_pickOne env fuel pools) p chars p'.
Proof.
  induction 1 as [|pool pools Hpool _ IH]; intros p; simpl.
  - exists [], p. apply returns_ret.
  - destruct (pickOne_returns pool p Hpool) as (c & p1 & Hc).
    destruct (IH p1) as (cs & p2 & Hcs).
    exists (c :: cs), p2.
    eapply (returns_bind _ (λ fuel c,
              let* cs := map_pickOne env fuel pools in ret (c :: cs)));
      [exact Hc |].
    eapply (returns_bind _ (λ _ cs, ret (c :: cs))); [exact Hcs |].
    apply returns_ret.
Qed.

Lemma fill_loop_returns len combinedPool :
  0 < Z.of_nat (String.length combinedPool) < 2 ^ 32 →
  len ≤ maxArrayLength →
  ∀ n chars p,
    len - Z.of_nat (length chars) ≤ Z.of_nat n →
    ∃ chars' p',
      returns (λ fuel, fill_loop env fuel n len combinedPool chars) p chars' p'.
Proof.
  intros Hcomb Hlen. induction n as [|n IH]; intros chars p Hn; simpl;
    destruct (Z.of_nat (length chars) <? len) eqn:Hlt;
    try apply Z.ltb_lt in Hlt; try lia.
  - exists chars, p. apply returns_ret.
  - destruct (pickOne_returns combinedPool p Hcomb) as (c & p1 & Hc).
    destruct (IH (chars ++ [c]) p1) as (chars' & p2 & Hrest).
    { rewrite length_app. simpl. lia. }
    exists chars', p2.
    eapply (returns_bind _ (λ fuel c,
              let* chars := arr_push chars c in
              fill_loop env fuel n len combinedPool chars));
      [exact Hc |].
    eapply (returns_bind (λ _, arr_push chars c)
              (λ fuel chars, fill_loop env fuel n len combinedPool chars));
      [| exact Hrest].
    unfold arr_push. rewrite (proj2 (Z.ltb_lt _ _)) by lia.
    apply returns_ret.
  - exists chars, p. apply returns_ret.
Qed.

Lemma shuffle_from_returns :
  ∀ i (array : jsarray) p,
    Z.of_nat i < maxArrayLength →
    ∃ array' p', returns (λ fuel, shuffle_from env fuel i array) p array' p'.
Proof.
  induction i as [|i IH]; intros array p Hi.
  - exists array, p. apply returns_ret.
  - destruct (secureRandomInt_returns (Z.of_nat (S i) + 1) p)
      as (j & p1 & Hj).
    { unfold maxArrayLength in Hi. lia. }
    destruct (IH (arr_set (arr_set array (Z.of_nat (S i)) (arr_get array j))
                    j (arr_get array (Z.of_nat (S i)))) p1)
      as (array' & p2 & Hrest); [lia |].
    exists array', p2.
    exact (returns_bind _ (λ fuel j,
             shuffle_from env fuel i
               (arr_set (arr_set array (Z.of_nat (S i)) (arr_get array j))
                  j (arr_get array (Z.of_nat (S i))))) _ _ _ _ _ Hj Hrest).
Qed.

Lemma shuffleInPlace_returns (array : jsarray) p :
  Z.of_nat (length array) ≤ maxArrayLength →
  ∃ array' p', returns (λ fuel, shuffleInPlace env fuel array) p array' p'.
Proof.
  intros Hmax. unfold shuffleInPlace. apply shuffle_from_returns.
  unfold maxArrayLength in *. lia.
Qed.
End Total.

(** ** Character classes *)

Lemma buildPools_specPools o : buildPools o = specPools o.
Proof. by destruct o as [[] [] [] []]. Qed.

Lemma elem_of_buildPools o pool :
  pool ∈ buildPools o ↔ ∃ c, enabled o c = true ∧ pool = poolOf c.
Proof.
  rewrite buildPools_specPools. unfold specPools.
  rewrite list_elem_of_fmap. split.
  - intros (c & -> & [Hc _]%list_elem_of_filter). eauto.
  - intros (c & Hc & ->). exists c. split; [done |].
    apply list_elem_of_filter. split; [done |].
    unfold canonicalOrder. destruct c; repeat constructor.
Qed.

(** The four pools have no character in common. *)
Lemma pools_disjoint c1 c2 ch :
  ch ∈ chars_of (poolOf c1) → ch ∈ chars_of (poolOf c2) → c1 = c2.
Proof.
  intros H1 H2. destruct (decide (c1 = c2)) as [|Hne]; [done |]. exfalso.
  assert (Forall (λ ch, ch ∉ chars_of (poolOf c2)) (chars_of (poolOf c1)))
    as Hall.
  { destruct c1, c2; try done; apply (bool_decide_unpack _); by vm_compute. }
  by apply (proj1 (Forall_forall _ _) Hall ch).
Qed.

(** ** Consequences of a successful composition *)

Lemma composed_defined pools picks fills :
  Forall2 picked pools picks →
  Forall (picked (str_join pools)) fills →
  defined (picks ++ fills).
Proof.
  intros Hpicks Hfills. apply Forall_app. split.
  - clear Hfills.
    induction Hpicks as [|pool c pools picks Hc _ IH]; constructor;
      [by eapply picked_is_Some | done].
  - eapply Forall_impl; [exact Hfills |]. intros c. apply picked_is_Some.
Qed.

Lemma composed_error len pools r : composed len pools r → error r = "".
Proof. by intros (picks & fills & shuffled & _ & _ & _ & _ & ->). Qed.

Lemma composed_length len pools r :
  composed len pools r → Z.of_nat (String.length (password r)) = len.
Proof.
  intros (picks & fills & shuffled & Hpicks & Hfills & Hlen & Hperm & ->).
  simpl. rewrite length_arr_join.
  - by rewrite (Permutation_length Hperm).
  - unfold defined. rewrite Hperm. by eapply (composed_defined pools).
Qed.

Lemma composed_members len pools r ch :
  composed len pools r →
  ch ∈ chars_of (password r) →
  ∃ pool, pool ∈ pools ∧ ch ∈ chars_of pool.
Proof.
  intros (picks & fills & shuffled & Hpicks & Hfills & _ & Hperm & ->).
  simpl. rewrite elem_of_arr_join, Hperm, elem_of_app.
  intros [Hin | Hin].
  - apply list_elem_of_lookup_1 in Hin as [i Hi].
    destruct (Forall2_lookup_r _ _ _ _ _ Hpicks Hi)
      as (pool & Hpool & ch' & [= <-] & Hch).
    exists pool. split; [by eapply list_elem_of_lookup_2 | done].
  - apply (proj1 (Forall_forall _ _) Hfills) in Hin as (ch' & [= <-] & Hch).
    by apply elem_of_str_join.
Qed.

Lemma composed_covers len pools r pool :
  composed len pools r →
  pool ∈ pools →
  ∃ ch, ch ∈ chars_of pool ∧ ch ∈ chars_of (password r).
Proof.
  intros (picks & fills & shuffled & Hpicks & _ & _ & Hperm & ->).
  intros [i Hi]%list_elem_of_lookup_1.
  destruct (Forall2_lookup_l _ _ _ _ _ Hpicks Hi)
    as (c & Hc & ch & -> & Hch).
  exists ch. split; [done |]. simpl.
  rewrite elem_of_arr_join, Hperm, elem_of_app. left.
  by eapply list_elem_of_lookup_2.
Qed.

(** ** Valid requests *)

Lemma generatePassword_valid_Done env fuel len o p r p' :
  in_range env →
  valid_request len o →
  generatePassword env fuel len o p = Done r p' →
  composed len (buildPools o) r.
Proof.
  intros Hrange [Hne Hlen] Hrun.
  apply generatePassword_Done in Hrun
    as [(Hnil & _) | [(_ & Hshort & _) | (_ & _ & Hcomp)]]; [| | | done];
    [done | lia | done].
Qed.

Lemma pool_length_small o :
  Forall (λ pool, 0 < Z.of_nat (String.length pool) < 2 ^ 32) (buildPools o).
Proof. destruct o as [[] [] [] []]; repeat constructor. Qed.

Lemma combinedPool_length_small o :
  Z.of_nat (String.length (str_join (buildPools o))) < 2 ^ 32.
Proof. by destruct o as [[] [] [] []]. Qed.

(** On a fair platform a valid request that fits in an array is answered. *)
Lemma generatePassword_returns env len o p :
  fair env →
  in_range env →
  valid_request len o →
  len ≤ maxArrayLength →
  ∃ r p', returns (λ fuel, generatePassword env fuel len o) p r p'
          ∧ composed len (buildPools o) r.
Proof.
  intros Hfair Hrange [Hne Hlen] Hmax.
  pose proof (combinedPool_nonempty o Hne) as Hcomb.
  pose proof (combinedPool_length_small o) as Hsmall.
  pose proof (buildPools_length o) as H4.
  destruct (map_pickOne_returns env Hfair _ (pool_length_small o) p)
    as (picks & p1 & Hpicks).
  destruct (returns_run _ _ _ _ Hpicks) as [f1 Hrun1].
  apply map_pickOne_Done in Hrun1; [| done].
  pose proof (Forall2_length _ _ _ Hrun1) as Hpl.
  destruct (fill_loop_returns env Hfair len (str_join (buildPools o))
              ltac:(lia) Hmax (Z.to_nat len) picks p1 ltac:(lia))
    as (chars & p2 & Hfill).
  destruct (returns_run _ _ _ _ Hfill) as [f2 Hrun2].
  apply fill_loop_Done in Hrun2 as (fills & -> & Hfills & Hlength & _);
    [| done].
  destruct (shuffleInPlace_returns env Hfair (picks ++ fills) p2 ltac:(lia))
    as (shuffled & p3 & Hshuffle).
  destruct (returns_run _ _ _ _ Hshuffle) as [f3 Hrun3].
  apply shuffleInPlace_Done in Hrun3; [| done | lia].
  exists {| password := arr_join shuffled; error := "" |}, p3. split.
  - destruct Hpicks as [g1 Hg1], Hfill as [g2 Hg2], Hshuffle as [g3 Hg3].
    exists (g1 `max` (g2 `max` g3))%nat. intros fuel Hfuel.
    unfold generatePassword.
    rewrite (proj2 (Nat.eqb_neq _ _)) by (destruct (buildPools o); done).
    rewrite (proj2 (Z.ltb_ge _ _)) by done.
    unfold bind at 1. rewrite Hg1 by lia.
    rewrite (proj2 (Nat.eqb_neq _ _)) by lia.
    unfold bind. rewrite Hg2 by lia. rewrite Hg3 by lia. done.
  - exists picks, fills, shuffled. repeat split; try done. lia.
Qed.

(** The fill loop exits only with the requested length reached, and a push
    never takes the array past the largest array length. *)
Lemma fill_loop_exit env fuel len combinedPool :
  ∀ n chars p chars' p',
    fill_loop env fuel n len combinedPool chars p = Done chars' p' →
    len ≤ Z.of_nat (length chars')
    ∧ Z.of_nat (length chars')
      ≤ Z.max maxArrayLength (Z.of_nat (length chars)).
Proof.
  induction n as [|n IH]; intros chars p chars' p'; simpl;
    destruct (Z.of_nat (length chars) <? len) eqn:Hlt;
    try discriminate;
    try (intros [= <- _]; apply Z.ltb_ge in Hlt; lia).
  intros (c & p1 & _ & (chars1 & p2 & Hpush & Hrest)%bind_Done)%bind_Done.
  unfold arr_push in Hpush.
  destruct (Z.of_nat (length chars) <? maxArrayLength) eqn:Hroom;
    [| discriminate].
  injection Hpush as <- <-. apply Z.ltb_lt in Hroom.
  apply IH in Hrest. rewrite length_app in Hrest. simpl in Hrest. lia.
Qed.

(** A request for more characters than an array can hold is never answered:
    the array cannot grow to the requested length. *)
Lemma generatePassword_too_long env fuel len o p r p' :
  buildPools o ≠ [] →
  maxArrayLength < len →
  generatePassword env fuel len o p ≠ Done r p'.
Proof.
  intros Hne Hlen. unfold generatePassword.
  pose proof (buildPools_length o) as H4.
  rewrite (proj2 (Nat.eqb_neq _ _)) by (destruct (buildPools o); done).
  rewrite (proj2 (Z.ltb_ge _ _)) by (unfold maxArrayLength in Hlen; lia).
  intros (picks & p1 & Hpicks & H)%bind_Done.
  rewrite (proj2 (Nat.eqb_neq _ _)) in H
    by (pose proof (combinedPool_nonempty o Hne); lia).
  apply bind_Done in H as (chars & p2 & Hfill & _).
  apply fill_loop_exit in Hfill.
  assert (length picks = length (buildPools o)) as Hpl;
    [| unfold maxArrayLength in *; lia].
  clear -Hpicks. revert p picks p1 Hpicks.
  induction (buildPools o) as [|pool pools IH]; intros p picks p1; simpl.
  - by intros [= <- _].
  - intros (c & q1 & _ & (cs & q2 & Hcs & [= <- _])%bind_Done)%bind_Done.
    simpl. f_equal. by eapply IH.
Qed.

(** * The claims *)

Lemma fair_zeros : fair zeros.
Proof.
  intros m p Hm. exists 0%nat.
  pose proof (limitOf_pos m Hm).
  change (drawn (λ _, 0) (p + 0)) with 0. lia.
Qed.

(** C2, as amended: for every valid request whose length is at most
    2^32 - 1, the largest length of an array, [generatePassword] succeeds
    (on a fair stream of draws, given enough iterations of the rejection
    loop) and the password has exactly [length] characters; and every run
    that returns on a valid request returns such a password. *)
Theorem generatePassword_exact_length env len o p :
  fair env →
  in_range env →
  valid_request len o →
  len ≤ maxArrayLength →
  (∃ r p', returns (λ fuel, generatePassword env fuel len o) p r p'
           ∧ error r = ""
           ∧ Z.of_nat (String.length (password r)) = len)
  ∧ (∀ fuel r p',
       generatePassword env fuel len o p = Done r p' →
       error r = "" ∧ Z.of_nat (String.length (password r)) = len).
Proof.
  intros Hfair Hrange Hvalid Hmax. split.
  - destruct (generatePassword_returns env len o p) as (r & p' & Hret & Hcomp);
      try done.
    exists r, p'. split; [done |].
    split; [by eapply composed_error | by eapply composed_length].
  - intros fuel r p' Hrun.
    apply generatePassword_valid_Done in Hrun; try done.
    split; [by eapply composed_error | by eapply composed_length].
Qed.

Lemma generatePassword_exact_length_witness :
  (∃ r p', returns (λ fuel, generatePassword zeros fuel 4 onlyUpper) 0%nat r p'
           ∧ error r = ""
           ∧ Z.of_nat (String.length (password r)) = 4)
  ∧ (∀ fuel r p',
       generatePassword zeros fuel 4 onlyUpper 0%nat = Done r p' →
       error r = "" ∧ Z.of_nat (String.length (password r)) = 4).
Proof.
  apply (generatePassword_exact_length zeros 4 onlyUpper 0%nat).
  - exact fair_zeros.
  - exact I.
  - split; [discriminate | vm_compute; discriminate].
  - vm_compute. discriminate.
Defined.

(** C2 as the specification states it fails for a length no array can have:
    the request for 2^32 uppercase characters is valid and is never answered,
    whatever the platform draws. *)
Lemma generatePassword_exact_length_counterexample :
  valid_request 4294967296 onlyUpper
  ∧ ∀ env fuel p r p',
      generatePassword env fuel 4294967296 onlyUpper p ≠ Done r p'.
Proof.
  split.
  - split; [discriminate |]. change (1 ≤ 4294967296). lia.
  - intros env fuel p r p'. apply generatePassword_too_long; [discriminate |].
    unfold maxArrayLength. lia.
Qed.

(** C3: for every valid request every character of the returned password
    belongs to the pool of an enabled class, and no character of the pool of
    a disabled class appears in it. *)
Theorem generatePassword_only_enabled env fuel len o p r p' :
  in_range env →
  valid_request len o →
  generatePassword env fuel len o p = Done r p' →
  (∀ ch, ch ∈ chars_of (password r) →
         ∃ c, enabled o c = true ∧ ch ∈ chars_of (poolOf c))
  ∧ (∀ c ch, enabled o c = false →
             ch ∈ chars_of (poolOf c) → ch ∉ chars_of (password r)).
Proof.
  intros Hrange Hvalid Hrun.
  apply generatePassword_valid_Done in Hrun; try done.
  assert (∀ ch, ch ∈ chars_of (password r) →
                ∃ c, enabled o c = true ∧ ch ∈ chars_of (poolOf c)) as Hin.
  { intros ch Hch.
    destruct (composed_members _ _ _ _ Hrun Hch) as (pool & Hpool & Hmem).
    apply elem_of_buildPools in Hpool as (c & Hc & ->). eauto. }
  split; [done |].
  intros c ch Hoff Hpool Hch.
  destruct (Hin ch Hch) as (c' & Hon & Hpool').
  assert (c = c') as <- by (by eapply pools_disjoint).
  congruence.
Qed.

Lemma generatePassword_only_enabled_witness :
  let r := {| password := "9678A"; error := "" |} in
  (∀ ch, ch ∈ chars_of (password r) →
         ∃ c, enabled upperAndNumbers c = true ∧ ch ∈ chars_of (poolOf c))
  ∧ (∀ c ch, enabled upperAndNumbers c = false →
             ch ∈ chars_of (poolOf c) → ch ∉ chars_of (password r)).
Proof.
  apply (generatePassword_only_enabled counting 1 5 upperAndNumbers 0%nat _ 9).
  - exact I.
  - split; [discriminate | vm_compute; discriminate].
  - vm_compute. reflexivity.
Defined.

(** C4: for every valid request and each enabled class, the returned
    password contains a character of the pool of that class: the guaranteed
    picks survive the fill and the shuffle. *)
Theorem generatePassword_covers_classes env fuel len o p r p' c :
  in_range env →
  valid_request len o →
  generatePassword env fuel len o p = Done r p' →
  enabled o c = true →
  ∃ ch, ch ∈ chars_of (poolOf c) ∧ ch ∈ chars_of (password r).
Proof.
  intros Hrange Hvalid Hrun Hon.
  apply generatePassword_valid_Done in Hrun; try done.
  eapply composed_covers; [exact Hrun |].
  apply elem_of_buildPools. eauto.
Qed.

Lemma generatePassword_covers_classes_witness :
  ∃ ch, ch ∈ chars_of (poolOf Digit) ∧ ch ∈ chars_of "p8A".
Proof.
  apply (generatePassword_covers_classes counting 1 3
           (Options true true true false) 0%nat
           {| password := "p8A"; error := "" |} 5 Digit).
  - exact I.
  - split; [discriminate | vm_compute; discriminate].
  - vm_compute. reflexivity.
  - reflexivity.
Defined.

(** ** Validation *)

Lemma buildPools_count o : length (buildPools o) = selectedCount o.
Proof. by destruct o as [[] [] [] []]. Qed.

(** Every way [generatePassword] returns an error leaves the password empty. *)
Lemma generatePassword_error_empty env fuel len o p r p' :
  generatePassword env fuel len o p = Done r p' →
  error r ≠ "" → password r = "".
Proof.
  unfold generatePassword.
  destruct (length (buildPools o) =? 0)%nat; [by intros [= <- _] |].
  destruct (len <? Z.of_nat (length (buildPools o))); [by intros [= <- _] |].
  intros (picks & p1 & _ & H)%bind_Done.
  destruct (String.length (str_join (buildPools o)) =? 0)%nat;
    [by injection H as <- _ |].
  apply bind_Done in H as (chars & p2 & _ & H).
  apply bind_Done in H as (shuffled & p3 & _ & [= <- _]).
  done.
Qed.

(** C5: validation is in order and the first failure wins.  With no class
    enabled the result is the NoCharacterClassSelected error; otherwise with
    a length below the number of pools it is the LengthTooShortForSelection
    error, whose message prints the minimum length, the number of selected
    pools; and every result that carries an error carries an empty
    password. *)
Theorem generatePassword_validation env fuel len o p :
  (selectedCount o = 0%nat →
   generatePassword env fuel len o p
   = Done {| password := ""; error := messageOf NoCharacterClassSelected |} p)
  ∧ (selectedCount o ≠ 0%nat →
     len < Z.of_nat (length (buildPools o)) →
     generatePassword env fuel len o p
     = Done {| password := "";
               error := messageOf (LengthTooShortForSelection (selectedCount o)) |}
            p
     ∧ messageOf (LengthTooShortForSelection (selectedCount o))
       = String.append "Length must be at least "
           (String.append (decimal (length (buildPools o)))
              " to include each selected type."))
  ∧ (∀ r p', generatePassword env fuel len o p = Done r p' →
             error r ≠ "" → password r = "").
Proof.
  rewrite <- buildPools_count. split; [| split].
  - intros Hnone. unfold generatePassword. by rewrite Hnone.
  - intros Hsome Hshort. unfold generatePassword.
    rewrite (proj2 (Nat.eqb_neq _ _) Hsome).
    by rewrite (proj2 (Z.ltb_lt _ _) Hshort).
  - intros r p'. apply generatePassword_error_empty.
Qed.

Lemma generatePassword_validation_witness :
  generatePassword counting 1 10 noClass 0%nat
  = Done {| password := ""; error := "Select at least one character option." |}
         0
  ∧ generatePassword counting 1 2 (Options true true true false) 0%nat
    = Done {| password := "";
              error := "Length must be at least 3 to include each selected type." |}
           0.
Proof.
  split.
  - apply (generatePassword_validation counting 1 10 noClass 0%nat).
    reflexivity.
  - apply (generatePassword_validation counting 1 2
             (Options true true true false) 0%nat).
    + discriminate.
    + vm_compute. reflexivity.
Defined.

(** ** The pool builder *)

(** C7: [buildPools] is a total function of the four flags that returns one
    pool per enabled class, in the canonical order Upper, Lower, Digit,
    Symbol, each the fixed non-empty string of its class; with no class
    enabled it returns the empty sequence. *)
Theorem buildPools_canonical o :
  buildPools o = poolOf <$> filter (λ c, enabled o c = true) canonicalOrder
  ∧ length (buildPools o) = selectedCount o
  ∧ Forall (λ pool, pool ≠ "") (buildPools o)
  ∧ poolOf <$> canonicalOrder
    = ["ABCDEFGHIJKLMNOPQRSTUVWXYZ"; "abcdefghijklmnopqrstuvwxyz";
       "0123456789"; "!@#$%^&*()-_=+[]{};:,.<>?/|~"]
  ∧ buildPools noClass = [].
Proof.
  split; [apply buildPools_specPools |].
  split; [apply buildPools_count |].
  split; [| done].
  eapply Forall_impl; [apply buildPools_nonempty_pools |].
  intros pool Hpos ->. simpl in Hpos. lia.
Qed.

(** ** Invalid requests *)

(** C8: an invalid request fails with the same error on every run, whatever
    the platform draws, and no random value is read: the run ends with the
    counter of draws where it started. *)
Theorem generatePassword_invalid_deterministic env1 env2 fuel1 fuel2 len o p :
  ¬ valid_request len o →
  generatePassword env1 fuel1 len o p = generatePassword env2 fuel2 len o p
  ∧ ∃ kind,
      generatePassword env1 fuel1 len o p
      = Done {| password := ""; error := messageOf kind |} p
      ∧ kind = (if decide (selectedCount o = 0%nat)
                then NoCharacterClassSelected
                else LengthTooShortForSelection (selectedCount o)).
Proof.
  intros Hinvalid. rewrite <- buildPools_count. unfold generatePassword.
  destruct (length (buildPools o) =? 0)%nat eqn:Hnone.
  - split; [done |]. apply Nat.eqb_eq in Hnone.
    exists NoCharacterClassSelected. by rewrite decide_True.
  - apply Nat.eqb_neq in Hnone.
    destruct (len <? Z.of_nat (length (buildPools o))) eqn:Hshort.
    + split; [done |].
      exists (LengthTooShortForSelection (length (buildPools o))).
      by rewrite decide_False.
    + exfalso. apply Hinvalid. apply Z.ltb_ge in Hshort.
      split; [| done]. by destruct (buildPools o).
Qed.

Lemma generatePassword_invalid_deterministic_witness :
  generatePassword zeros 0 2 allClasses 5%nat
  = generatePassword (NoCrypto (λ _ _, 7)) 3 2 allClasses 5%nat
  ∧ ∃ kind,
      generatePassword zeros 0 2 allClasses 5%nat
      = Done {| password := ""; error := messageOf kind |} 5
      ∧ kind = (if decide (selectedCount allClasses = 0%nat)
                then NoCharacterClassSelected
                else LengthTooShortForSelection (selectedCount allClasses)).
Proof.
  apply (generatePassword_invalid_deterministic
           zeros (NoCrypto (λ _ _, 7)) 0 3 2 allClasses 5%nat).
  intros [_ Hlen]. vm_compute in Hlen. by apply Hlen.
Defined.

(** ** The shuffle *)

Lemma length_swap_positions buffer i j :
  length (swap_positions buffer i j) = length buffer.
Proof. apply length_imap. Qed.

Lemma inserts_swap_positions (array : jsarray) (i j : nat) xi xj :
  array !! i = Some xi →
  array !! j = Some xj →
  <[j := xi]> (<[i := xj]> array) = swap_positions array i j.
Proof.
  intros Hi Hj. apply list_eq. intros k. unfold swap_positions.
  rewrite list_lookup_imap.
  apply lookup_lt_Some in Hi as Hi'. apply lookup_lt_Some in Hj as Hj'.
  destruct (decide (k = j)) as [-> | Hkj].
  - rewrite list_lookup_insert_eq by (by rewrite length_insert).
    rewrite Hj. simpl. repeat case_decide; simplify_eq; by rewrite ?Hi.
  - rewrite list_lookup_insert_ne by done.
    destruct (decide (k = i)) as [-> | Hki].
    + rewrite list_lookup_insert_eq by done. by rewrite Hi, Hj.
    + rewrite list_lookup_insert_ne by done. by destruct (array !! k).
Qed.

Section Shuffle.
Context (env : platform) (fuel : nat) (Hrange : in_range env).

Lemma shuffle_from_steps :
  ∀ i (array : jsarray) p,
    (i < length array)%nat →
    Z.of_nat (length array) ≤ maxArrayLength →
    shuffle_from env fuel i array p
    = fisherYates_steps env fuel (reverse (seq 1 i)) array p.
Proof.
  induction i as [|i IH]; intros array p Hi Hmax; [done |].
  rewrite seq_S, reverse_snoc.
  change (1 + i)%nat with (S i).
  change (shuffle_from env fuel (S i) array p)
    with (bind (secureRandomInt env fuel (Z.of_nat (S i) + 1))
            (λ j, shuffle_from env fuel i
                    (arr_set (arr_set array (Z.of_nat (S i)) (arr_get array j))
                       j (arr_get array (Z.of_nat (S i))))) p).
  change (fisherYates_steps env fuel (S i :: reverse (seq 1 i)) array p)
    with (bind (secureRandomInt env fuel (Z.of_nat (S i) + 1))
            (λ j, fisherYates_steps env fuel (reverse (seq 1 i))
                    (swap_positions array (S i) (Z.to_nat j))) p).
  unfold bind.
  destruct (secureRandomInt env fuel (Z.of_nat (S i) + 1) p)
    as [j p1| |] eqn:Hj; [| done | done].
  apply secureRandomInt_Done in Hj; [| done].
  destruct (lookup_lt_is_Some_2 array (S i) Hi) as [xi Hxi].
  destruct (lookup_lt_is_Some_2 array (Z.to_nat j) ltac:(lia)) as [xj Hxj].
  rewrite <- (Z2Nat.id j) at 1 2 by lia.
  rewrite (swap_inserts array _ _ xi xj) by done.
  rewrite (inserts_swap_positions array _ _ xi xj) by done.
  apply IH; rewrite length_swap_positions; [lia | done].
Qed.

Lemma shuffleInPlace_specShuffle (array : jsarray) p :
  Z.of_nat (length array) ≤ maxArrayLength →
  shuffleInPlace env fuel array p = specShuffle env fuel array p.
Proof.
  intros Hmax. unfold shuffleInPlace, specShuffle.
  destruct array as [|x array]; [done |].
  apply shuffle_from_steps; [simpl; lia | done].
Qed.

(** A successful run ends with the shuffle of the composed buffer. *)
Lemma generatePassword_success_shuffle len o p r p' :
  generatePassword env fuel len o p = Done r p' →
  error r = "" →
  ∃ (picks fills shuffled : jsarray) p1,
    Forall2 picked (buildPools o) picks
    ∧ Forall (picked (str_join (buildPools o))) fills
    ∧ Z.of_nat (length (picks ++ fills)) = len
    ∧ shuffleInPlace env fuel (picks ++ fills) p1 = Done shuffled p'
    ∧ Z.of_nat (length (picks ++ fills)) ≤ maxArrayLength
    ∧ password r = arr_join shuffled.
Proof.
  unfold generatePassword.
  destruct (length (buildPools o) =? 0)%nat; [by intros [= <- _] |].
  destruct (len <? Z.of_nat (length (buildPools o))) eqn:Hlen;
    [by intros [= <- _] |].
  apply Z.ltb_ge in Hlen.
  intros (picks & p1 & Hpicks & H)%bind_Done.
  destruct (String.length (str_join (buildPools o)) =? 0)%nat;
    [by injection H as <- _ |].
  apply bind_Done in H as (chars & p2 & Hfill & H).
  apply bind_Done in H as (shuffled & p3 & Hshuffle & [= <- <-]).
  intros _.
  apply map_pickOne_Done in Hpicks; [| done].
  apply fill_loop_Done in Hfill as (fills & -> & Hfills & Hlength & Hmax);
    [| done].
  pose proof (Forall2_length _ _ _ Hpicks) as Hpl.
  pose proof (buildPools_length o) as H4.
  exists picks, fills, shuffled, p2. repeat split; try done; [lia |].
  destruct fills as [|c fills]; [| by apply Hmax].
  rewrite app_nil_r. unfold maxArrayLength. lia.
Qed.
End Shuffle.

(** C6: the shuffle is the Fisher-Yates walk of the specification: for [i]
    from [length - 1] down to 1 it draws [j] from the random source with
    bound [i + 1] and exchanges the elements at [i] and [j]; and every
    successful run of [generatePassword] joins the result of that shuffle,
    applied to the composed buffer, into the password. *)
Theorem shuffleInPlace_fisher_yates env fuel :
  in_range env →
  (∀ (array : jsarray) p,
     Z.of_nat (length array) ≤ maxArrayLength →
     shuffleInPlace env fuel array p
     = fisherYates_steps env fuel (reverse (seq 1 (length array - 1))) array p)
  ∧ (∀ len o p r p',
       generatePassword env fuel len o p = Done r p' →
       error r = "" →
       ∃ (picks fills shuffled : jsarray) p1,
         Forall2 picked (buildPools o) picks
         ∧ Forall (picked (str_join (buildPools o))) fills
         ∧ Z.of_nat (length (picks ++ fills)) = len
         ∧ specShuffle env fuel (picks ++ fills) p1 = Done shuffled p'
         ∧ password r = arr_join shuffled).
Proof.
  intros Hrange. split.
  - intros array p Hmax. by apply shuffleInPlace_specShuffle.
  - intros len o p r p' Hrun Hok.
    destruct (generatePassword_success_shuffle env fuel Hrange _ _ _ _ _ Hrun Hok)
      as (picks & fills & shuffled & p1 & Hp & Hf & Hl & Hs & Hmax & Hpw).
    exists picks, fills, shuffled, p1. repeat split; try done.
    by rewrite <- shuffleInPlace_specShuffle.
Qed.

Lemma shuffleInPlace_fisher_yates_witness :
  shuffleInPlace counting 1 [Some "a"; Some "b"; Some "c"; Some "d"]%char 0%nat
  = fisherYates_steps counting 1 [3; 2; 1]%nat
      [Some "a"; Some "b"; Some "c"; Some "d"]%char 0%nat.
Proof.
  apply (proj1 (shuffleInPlace_fisher_yates counting 1 I)
           [Some "a"; Some "b"; Some "c"; Some "d"]%char 0%nat).
  vm_compute. discriminate.
Defined.

Example shuffle_abcd :
  shuffleInPlace counting 1 [Some "a"; Some "b"; Some "c"; Some "d"]%char 0%nat
  = Done [Some "b"; Some "d"; Some "c"; Some "a"]%char 3.
Proof. vm_compute. reflexivity. Qed.

(** ** The fallback generator *)

(** C9 as the specification states it fails: the page with the secure
    generator and the page that fell back return the very same number from
    the random source and the very same object from [generatePassword]; no
    flag, distinct return or record of the fallback exists. *)
Lemma fallback_detectable_counterexample :
  secureRandomInt counting 1 26 1%nat = Done 15 2
  ∧ secureRandomInt countingFallback 1 26 1%nat = Done 15 2
  ∧ generatePassword counting 1 8 allClasses 0%nat
    = Done {| password := "p+>.<8?A"; error := "" |} 15
  ∧ generatePassword countingFallback 1 8 allClasses 0%nat
    = Done {| password := "p+>.<8?A"; error := "" |} 15
  ∧ ¬ fallback_detectable.
Proof.
  assert (secureRandomInt counting 1 26 1%nat = Done 15 2) as Hsecure
    by (vm_compute; reflexivity).
  assert (secureRandomInt countingFallback 1 26 1%nat = Done 15 2) as Hfallback
    by (vm_compute; reflexivity).
  split; [exact Hsecure |]. split; [exact Hfallback |].
  split; [vm_compute; reflexivity |]. split; [vm_compute; reflexivity |].
  intros [detect Hdetect].
  destruct (Hdetect (λ k, Z.of_nat k * 7919)
              (λ k m, Z.rem (Z.of_nat k * 7919) m) 1%nat 26 1%nat)
    as [Htrue Hfalse]; [lia |].
  fold counting in Htrue. fold countingFallback in Hfalse.
  rewrite Hsecure in Htrue. rewrite Hfallback in Hfalse.
  congruence.
Qed.

(** C9, as amended: when no secure generator is available the random source
    returns the value of the non-secure generator as a plain integer, and
    this path is not distinguishable by the caller: whatever in-range value
    the fallback returns, the secure path returns the same value, after the
    same number of draws, on some stream. *)
Theorem fallback_is_silent r fuel m p :
  0 < m < 2 ^ 32 →
  0 ≤ r p m < m →
  secureRandomInt (NoCrypto r) fuel m p = Done (r p m) (S p)
  ∧ ∃ s, ∀ fuel', (0 < fuel')%nat →
                  secureRandomInt (WithCrypto s) fuel' m p = Done (r p m) (S p).
Proof.
  intros Hm Hv. split.
  - unfold secureRandomInt. by rewrite (proj2 (Z.leb_gt _ _)) by lia.
  - exists (λ _, r p m). intros fuel' Hfuel.
    pose proof (limitOf_pos m Hm) as Hlimit.
    assert (drawn (λ _, r p m) (p + 0) = r p m) as Hdrawn.
    { unfold drawn. apply Z.mod_small. lia. }
    unfold secureRandomInt. rewrite (proj2 (Z.leb_gt _ _)) by lia.
    rewrite (rejection_loop_first _ _ _ 0%nat); [| lia | lia | done].
    rewrite Hdrawn, Nat.add_0_r. f_equal.
    rewrite Z.rem_mod_nonneg by lia. apply Z.mod_small. lia.
Qed.

Lemma fallback_is_silent_witness :
  secureRandomInt countingFallback 1 26 1%nat = Done 15 2
  ∧ ∃ s, ∀ fuel', (0 < fuel')%nat →
                  secureRandomInt (WithCrypto s) fuel' 26 1%nat = Done 15 2.
Proof.
  apply (fallback_is_silent (λ k m, Z.rem (Z.of_nat k * 7919) m) 1 26 1%nat).
  - lia.
  - vm_compute. split; [discriminate | reflexivity].
Defined.

(** ** Unreachable branches *)

Lemma tooShortMessage_distinct n : tooShortMessage n ≠ noCharactersMessage.
Proof.
  unfold tooShortMessage, noCharactersMessage. cbn [String.append].
  discriminate.
Qed.

Section Unreachable.
Context (env : platform) (fuel : nat).

Lemma pickOne_Thrown str p msg :
  pickOne env fuel str p = Thrown msg →
  String.length str = 0%nat ∧ msg = invalidBoundMessage.
Proof.
  unfold pickOne.
  intros [H | (i & p1 & _ & H)]%bind_Thrown; [| discriminate].
  apply secureRandomInt_Thrown in H as [Hlen ->]. split; [lia | done].
Qed.

Lemma map_pickOne_not_Thrown pools :
  Forall (λ pool, (0 < String.length pool)%nat) pools →
  ∀ p msg, map_pickOne env fuel pools p ≠ Thrown msg.
Proof.
  induction 1 as [|pool pools Hpool _ IH]; intros p msg; simpl; [done |].
  intros [H | (c & p1 & _ & H)]%bind_Thrown.
  - apply pickOne_Thrown in H as [Hlen _]. lia.
  - apply bind_Thrown in H as [H | (cs & p2 & _ & H)]; [| discriminate].
    by apply IH in H.
Qed.

Lemma fill_loop_Thrown len combinedPool :
  (0 < String.length combinedPool)%nat →
  ∀ n chars p msg,
    fill_loop env fuel n len combinedPool chars p = Thrown msg →
    msg = invalidArrayLengthMessage.
Proof.
  intros Hcomb. induction n as [|n IH]; intros chars p msg; simpl;
    destruct (Z.of_nat (length chars) <? len); try discriminate.
  intros [H | (c & p1 & _ & H)]%bind_Thrown.
  - apply pickOne_Thrown in H as [Hlen _]. lia.
  - apply bind_Thrown in H as [H | (chars1 & p2 & _ & H)]; [| by eapply IH].
    unfold arr_push in H.
    destruct (Z.of_nat (length chars) <? maxArrayLength); [discriminate |].
    by injection H as <-.
Qed.

Lemma shuffle_from_not_Thrown :
  ∀ i (array : jsarray) p msg, shuffle_from env fuel i array p ≠ Thrown msg.
Proof.
  induction i as [|i IH]; intros array p msg; [done |].
  change (shuffle_from env fuel (S i) array p)
    with (bind (secureRandomInt env fuel (Z.of_nat (S i) + 1))
            (λ j, shuffle_from env fuel i
                    (arr_set (arr_set array (Z.of_nat (S i)) (arr_get array j))
                       j (arr_get array (Z.of_nat (S i))))) p).
  intros [H | (j & p1 & _ & H)]%bind_Thrown.
  - apply secureRandomInt_Thrown in H as [Hle _]. lia.
  - by apply IH in H.
Qed.

(** The only exception that can leave [generatePassword] is the one of a
    push past the largest array length. *)
Lemma generatePassword_Thrown len o p msg :
  generatePassword env fuel len o p = Thrown msg →
  msg = invalidArrayLengthMessage.
Proof.
  unfold generatePassword.
  destruct (length (buildPools o) =? 0)%nat eqn:Hnone; [discriminate |].
  destruct (len <? Z.of_nat (length (buildPools o))); [discriminate |].
  pose proof (buildPools_nonempty_pools o) as Hpools.
  assert (buildPools o ≠ []) as Hne.
  { intros Hnil. by rewrite Hnil in Hnone. }
  pose proof (combinedPool_nonempty o Hne) as Hcomb.
  intros [H | (picks & p1 & _ & H)]%bind_Thrown.
  { by apply map_pickOne_not_Thrown in H. }
  destruct (String.length (str_join (buildPools o)) =? 0)%nat;
    [discriminate |].
  apply bind_Thrown in H as [H | (chars & p2 & _ & H)].
  { by eapply fill_loop_Thrown. }
  apply bind_Thrown in H as [H | (shuffled & p3 & _ & H)]; [| discriminate].
  by apply shuffle_from_not_Thrown in H.
Qed.
End Unreachable.

(** C10: every string [generatePassword] passes to [pickOne], a pool or the
    combined pool of a non-empty selection, is non-empty; so whatever the
    request and the platform, the random source is never called with a
    non-positive bound, its exception never leaves [generatePassword], and
    the result for an empty combined pool is never returned. *)
Theorem generatePassword_dead_branches env fuel len o p :
  Forall (λ pool, (0 < String.length pool)%nat) (buildPools o)
  ∧ (buildPools o ≠ [] → (0 < String.length (str_join (buildPools o)))%nat)
  ∧ (∀ pool p1 msg, (0 < String.length pool)%nat →
                    pickOne env fuel pool p1 ≠ Thrown msg)
  ∧ generatePassword env fuel len o p ≠ Thrown invalidBoundMessage
  ∧ (∀ r p', generatePassword env fuel len o p = Done r p' →
             error r ≠ noCharactersMessage).
Proof.
  split; [apply buildPools_nonempty_pools |].
  split; [apply combinedPool_nonempty |].
  split; [| split].
  - intros pool p1 msg Hpool [Hlen _]%pickOne_Thrown. lia.
  - by intros ?%generatePassword_Thrown.
  - intros r p'. unfold generatePassword.
    destruct (length (buildPools o) =? 0)%nat eqn:Hnone;
      [by intros [= <- _] |].
    destruct (len <? Z.of_nat (length (buildPools o)));
      [intros [= <- _]; apply tooShortMessage_distinct |].
    intros (picks & p1 & _ & H)%bind_Done.
    assert (buildPools o ≠ []) as Hne.
    { intros Hnil. by rewrite Hnil in Hnone. }
    pose proof (combinedPool_nonempty o Hne) as Hcomb.
    rewrite (proj2 (Nat.eqb_neq _ _)) in H by lia.
    apply bind_Done in H as (chars & p2 & _ & H).
    by apply bind_Done in H as (shuffled & p3 & _ & [= <- _]).
Qed.

Lemma generatePassword_dead_branches_witness :
  (0 < String.length (str_join (buildPools upperAndNumbers)))%nat.
Proof.
  apply (generatePassword_dead_branches counting 1 5 upperAndNumbers 0%nat).
  discriminate.
Defined.

(** * Further properties *)

(** ** The random source: bias, rejection and bounds *)

Lemma filter_none {A} (P : A → Prop) `{∀ x, Decision (P x)} (l : list A) :
  (∀ x, x ∈ l → ¬ P x) → filter P l = [].
Proof.
  induction l as [|x l IH]; intros Hnone; [done |].
  rewrite filter_cons_False by (apply Hnone; left).
  apply IH. intros y Hy. apply Hnone. by right.
Qed.

(** Among [m] consecutive values starting at a multiple of [m], exactly one
    has remainder [r]. *)
Lemma residue_block m r q :
  0 < m → 0 ≤ r < m → 0 ≤ q →
  length (filter (λ v, Z.rem v m = r) (seqZ (m * q) m)) = 1%nat.
Proof.
  intros Hm Hr Hq.
  replace (seqZ (m * q) m) with (seqZ (m * q) (r + (m - r)))
    by (f_equal; lia).
  rewrite seqZ_app by lia.
  rewrite (seqZ_cons (m * q + r)) by lia.
  rewrite filter_app, filter_cons_True.
  - rewrite !filter_none; [done | |].
    + intros v [Hlo Hhi]%elem_of_seqZ. rewrite Z.rem_mod_nonneg by nia.
      rewrite <- (Z.mod_unique_pos v m q (v - m * q)); lia.
    + intros v [Hlo Hhi]%elem_of_seqZ. rewrite Z.rem_mod_nonneg by nia.
      rewrite <- (Z.mod_unique_pos v m q (v - m * q)); lia.
  - rewrite Z.rem_mod_nonneg by nia.
    symmetry. apply (Z.mod_unique_pos _ m q r); lia.
Qed.

Lemma residue_count m r (k : nat) :
  0 < m → 0 ≤ r < m →
  length (filter (λ v, Z.rem v m = r) (seqZ 0 (m * Z.of_nat k))) = k.
Proof.
  intros Hm Hr. induction k as [|k IH].
  - by rewrite Z.mul_0_r.
  - replace (m * Z.of_nat (S k)) with (m * Z.of_nat k + m) by lia.
    rewrite seqZ_app by nia.
    rewrite filter_app, length_app, IH, Z.add_0_l.
    rewrite residue_block by lia. lia.
Qed.

Lemma secureRandomInt_unbiased_count m r :
  0 < m →
  0 ≤ r < m →
  length (filter (λ value, Z.rem value m = r) (seqZ 0 (limitOf m)))
  = Z.to_nat (uint32Max / m).
Proof.
  intros Hm Hr. rewrite limitOf_multiple by done.
  assert (0 ≤ uint32Max / m) as Hk.
  { apply Z.div_pos; [unfold uint32Max |]; lia. }
  rewrite <- (Z2Nat.id (uint32Max / m)) at 1 by done.
  by apply residue_count.
Qed.

(** X1: the rejection test removes the modulo bias.  Of the 32-bit values
    the loop accepts, the values below the limit, each result [r] in
    [0, maxExclusive) is the remainder of the same number of values,
    (2^32 - 1) / maxExclusive of them; the limit is that number of times
    the bound. *)
Theorem secureRandomInt_unbiased maxExclusive r :
  0 < maxExclusive →
  0 ≤ r < maxExclusive →
  length (filter (λ value, Z.rem value maxExclusive = r)
            (seqZ 0 (limitOf maxExclusive)))
  = Z.to_nat (uint32Max / maxExclusive)
  ∧ limitOf maxExclusive = maxExclusive * (uint32Max / maxExclusive)
  ∧ 0 ≤ uint32Max / maxExclusive.
Proof.
  intros Hm Hr.
  pose proof (limitOf_multiple maxExclusive Hm) as Hmult.
  rewrite (secureRandomInt_unbiased_count maxExclusive r Hm Hr).
  split; [reflexivity |]. split; [exact Hmult |].
  apply Z.div_pos; [unfold uint32Max |]; lia.
Qed.

Lemma secureRandomInt_unbiased_witness :
  length (filter (λ value, Z.rem value 3 = 2) (seqZ 0 (limitOf 3)))
  = Z.to_nat (uint32Max / 3)
  ∧ limitOf 3 = 3 * (uint32Max / 3)
  ∧ 0 ≤ uint32Max / 3.
Proof. apply secureRandomInt_unbiased; lia. Defined.





Lemma rejection_loop_limit_0 s m :
  ∀ n p, rejection_loop n s 0 m p = Spinning.
Proof.
  induction n as [|n IH]; intros p; simpl; [done |].
  pose proof (drawn_range s p).
  by rewrite (proj2 (Z.ltb_ge _ _)) by lia.
Qed.

(** X4: with the secure generator a bound of 2^32 or more never gets an
    answer: the limit is 0, every draw is rejected and the loop does not
    end, however many iterations it is given. *)
Theorem secureRandomInt_huge_bound s fuel maxExclusive p :
  2 ^ 32 ≤ maxExclusive →
  limitOf maxExclusive = 0
  ∧ secureRandomInt (WithCrypto s) fuel maxExclusive p = Spinning.
Proof.
  intros Hm.
  assert (limitOf maxExclusive = 0) as Hlimit.
  { unfold limitOf, uint32Max. rewrite Z.rem_small; lia. }
  split; [done |]. unfold secureRandomInt.
  rewrite (proj2 (Z.leb_gt _ _)) by lia.
  rewrite Hlimit. apply rejection_loop_limit_0.
Qed.

Lemma secureRandomInt_huge_bound_witness :
  limitOf 4294967296 = 0
  ∧ secureRandomInt zeros 1000 4294967296 0%nat = Spinning.
Proof. apply secureRandomInt_huge_bound. lia. Defined.

(** ** How many random values a run reads *)

Lemma reads_0 env p : reads env p p 0.
Proof. split; [lia |]. destruct env; [done | lia]. Qed.

Lemma reads_trans env p p' p'' n n' :
  reads env p p' n → reads env p' p'' n' → reads env p p'' (n + n').
Proof.
  intros [H1 E1] [H2 E2]. split; [lia |]. destruct env; [done | lia].
Qed.

Section Reads.
Context (env : platform) (fuel : nat).

Lemma secureRandomInt_reads m p v p' :
  secureRandomInt env fuel m p = Done v p' → reads env p p' 1.
Proof.
  intros H. pose proof (secureRandomInt_Done_pos _ _ _ _ _ _ H) as Hm.
  revert H. unfold secureRandomInt. rewrite (proj2 (Z.leb_gt _ _) Hm).
  destruct env as [s|r].
  - intros (k & _ & -> & _)%rejection_loop_Done. split; [lia | done].
  - intros [= _ <-]. split; lia.
Qed.

Lemma pickOne_reads str p c p' :
  pickOne env fuel str p = Done c p' → reads env p p' 1.
Proof.
  unfold pickOne. intros (i & p1 & Hi & [= _ <-])%bind_Done.
  by eapply secureRandomInt_reads.
Qed.

Lemma map_pickOne_reads pools :
  ∀ p chars p',
    map_pickOne env fuel pools p = Done chars p' →
    length chars = length pools ∧ reads env p p' (length pools).
Proof.
  induction pools as [|pool pools IH]; intros p chars p'; simpl.
  - intros [= <- <-]. split; [done | apply reads_0].
  - intros (c & p1 & Hc & (cs & p2 & Hcs & [= <- <-])%bind_Done)%bind_Done.
    apply pickOne_reads in Hc. apply IH in Hcs as [Hlen Hcs].
    split; [simpl; lia |].
    exact (reads_trans env p p1 p2 1 (length pools) Hc Hcs).
Qed.

Lemma fill_loop_reads len combinedPool :
  ∀ n chars p chars' p',
    fill_loop env fuel n len combinedPool chars p = Done chars' p' →
    (length chars ≤ length chars')%nat
    ∧ reads env p p' (length chars' - length chars).
Proof.
  induction n as [|n IH]; intros chars p chars' p'; simpl;
    destruct (Z.of_nat (length chars) <? len); try discriminate;
    try (intros [= <- <-]; rewrite Nat.sub_diag; split; [lia | apply reads_0]).
  intros (c & p1 & Hc & (chars1 & p2 & Hpush & Hrest)%bind_Done)%bind_Done.
  unfold arr_push in Hpush.
  destruct (Z.of_nat (length chars) <? maxArrayLength); [| discriminate].
  injection Hpush as <- <-.
  apply pickOne_reads in Hc. apply IH in Hrest as [Hlen Hrest].
  rewrite length_app in *. simpl in *. split; [lia |].
  replace (length chars' - length chars)%nat
    with (1 + (length chars' - (length chars + 1)))%nat by lia.
  exact (reads_trans env p p1 p' _ _ Hc Hrest).
Qed.

Lemma shuffle_from_reads :
  ∀ i (array : jsarray) p array' p',
    shuffle_from env fuel i array p = Done array' p' → reads env p p' i.
Proof.
  induction i as [|i IH]; intros array p array' p'.
  - intros [= _ <-]. apply reads_0.
  - change (shuffle_from env fuel (S i) array p)
      with (bind (secureRandomInt env fuel (Z.of_nat (S i) + 1))
              (λ j, shuffle_from env fuel i
                      (arr_set (arr_set array (Z.of_nat (S i)) (arr_get array j))
                         j (arr_get array (Z.of_nat (S i))))) p).
    intros (j & p1 & Hj & Hrest)%bind_Done.
    apply secureRandomInt_reads in Hj. apply IH in Hrest.
    exact (reads_trans env p p1 p' 1 i Hj Hrest).
Qed.
End Reads.

(** X5: the shuffle returns a permutation of the array it is given, of the
    same length, after reading at least one random value for each index
    from [length - 1] down to 1, and exactly that many on the fallback
    platform; on a fair stream of draws it does return. *)
Theorem shuffleInPlace_permutes env (array : jsarray) p :
  fair env →
  in_range env →
  Z.of_nat (length array) ≤ maxArrayLength →
  (∃ array' p', returns (λ fuel, shuffleInPlace env fuel array) p array' p')
  ∧ (∀ fuel array' p',
       shuffleInPlace env fuel array p = Done array' p' →
       array' ≡ₚ array
       ∧ length array' = length array
       ∧ reads env p p' (length array - 1)).
Proof.
  intros Hfair Hrange Hmax. split.
  - by apply shuffleInPlace_returns.
  - intros fuel array' p' Hrun.
    pose proof (shuffleInPlace_Done env fuel Hrange _ _ _ _ Hmax Hrun) as Hperm.
    split; [done |]. split; [by apply Permutation_length |].
    by eapply shuffle_from_reads.
Qed.

Lemma shuffleInPlace_permutes_witness :
  [Some "b"; Some "c"; Some "d"; Some "a"]%char
  ≡ₚ [Some "a"; Some "b"; Some "c"; Some "d"]%char
  ∧ length [Some "b"; Some "c"; Some "d"; Some "a"]%char
    = length [Some "a"; Some "b"; Some "c"; Some "d"]%char
  ∧ reads zeros 0 3 (length [Some "a"; Some "b"; Some "c"; Some "d"]%char - 1).
Proof.
  apply (proj2 (shuffleInPlace_permutes zeros
                  [Some "a"; Some "b"; Some "c"; Some "d"]%char 0%nat
                  fair_zeros I ltac:(vm_compute; discriminate)) 1%nat).
  vm_compute. reflexivity.
Defined.

(** ** Every arrangement can come out of the shuffle *)

(** A draw that is already below the bound is accepted at once. *)
Lemma secureRandomInt_first_draw s fuel m p j :
  0 ≤ j < m → m < 2 ^ 32 → s p = j → (0 < fuel)%nat →
  secureRandomInt (WithCrypto s) fuel m p = Done j (S p).
Proof.
  intros Hj Hm Hs Hfuel.
  pose proof (limitOf_pos m ltac:(lia)) as Hlimit.
  assert (drawn s (p + 0) = j) as Hdrawn.
  { unfold drawn. rewrite Nat.add_0_r, Hs. apply Z.mod_small. lia. }
  unfold secureRandomInt. rewrite (proj2 (Z.leb_gt _ _)) by lia.
  rewrite (rejection_loop_first _ _ _ 0%nat); [| lia | lia | done].
  rewrite Hdrawn, Nat.add_0_r. f_equal.
  rewrite Z.rem_mod_nonneg by lia. apply Z.mod_small. lia.
Qed.

Lemma shuffle_from_reaches :
  ∀ i (array target : jsarray) p,
    (i < length array)%nat →
    Z.of_nat (length array) ≤ maxArrayLength →
    target ≡ₚ array →
    drop (S i) target = drop (S i) array →
    ∃ js : list Z,
      length js = i
      ∧ ∀ s fuel,
          (0 < fuel)%nat →
          (∀ k j, js !! k = Some j → s (p + k)%nat = j) →
          shuffle_from (WithCrypto s) fuel i array p = Done target (p + i).
Proof.
  induction i as [|i IH]; intros array target p Hi Hmax Hperm Hdrop.
  - exists []. split; [done |]. intros s fuel _ _. simpl. rewrite Nat.add_0_r.
    unfold ret. f_equal.
    pose proof (Permutation_length Hperm) as Hlen.
    rewrite <- (take_drop 1 array), <- (take_drop 1 target) in Hperm.
    rewrite Hdrop in Hperm. apply Permutation_app_inv_r in Hperm.
    rewrite <- (take_drop 1 array), <- (take_drop 1 target), Hdrop.
    f_equal.
    assert (length (take 1 array) = 1%nat) as Hla
      by (rewrite length_take; lia).
    assert (length (take 1 target) = 1%nat) as Hlt
      by (rewrite length_take; lia).
    destruct (take 1 array) as [|a [|]], (take 1 target) as [|t [|]];
      try discriminate.
    by apply Permutation_singleton_r in Hperm.
  - pose proof (Permutation_length Hperm) as Hlen.
    destruct (lookup_lt_is_Some_2 target (S i) ltac:(lia)) as [x Hx].
    destruct (lookup_lt_is_Some_2 array (S i) Hi) as [xi Hxi].
    assert (∃ j, array !! j = Some x ∧ (j < S (S i))%nat) as (j & Hj & Hjlt).
    { apply elem_of_take.
      assert (take (S (S i)) target ≡ₚ take (S (S i)) array) as <-.
      { rewrite <- (take_drop (S (S i)) array),
          <- (take_drop (S (S i)) target) in Hperm.
        rewrite Hdrop in Hperm. by apply Permutation_app_inv_r in Hperm. }
      apply elem_of_take. exists (S i). split; [done | lia]. }
    set (array' := <[j := xi]> (<[S i := x]> array)).
    assert (array' !! S i = Some x) as Hx'.
    { unfold array'. destruct (decide (j = S i)) as [-> | Hne].
      - rewrite list_lookup_insert_eq by (by rewrite length_insert).
        congruence.
      - rewrite list_lookup_insert_ne by done.
        by rewrite list_lookup_insert_eq. }
    destruct (IH array' target (S p)) as (js & Hlenjs & Hjs).
    + unfold array'. rewrite !length_insert. lia.
    + unfold array'. by rewrite !length_insert.
    + rewrite Hperm. unfold array'. symmetry.
      by apply Permutation_insert_swap.
    + rewrite (drop_S target x (S i) Hx), (drop_S array' x (S i) Hx').
      f_equal. rewrite Hdrop. unfold array'.
      by rewrite !drop_insert_lt by lia.
    + exists (Z.of_nat j :: js). split; [simpl; lia |].
      intros s fuel Hfuel Hs.
      change (shuffle_from (WithCrypto s) fuel (S i) array p)
        with (bind (secureRandomInt (WithCrypto s) fuel (Z.of_nat (S i) + 1))
                (λ j, shuffle_from (WithCrypto s) fuel i
                        (arr_set (arr_set array (Z.of_nat (S i))
                                    (arr_get array j))
                           j (arr_get array (Z.of_nat (S i))))) p).
      unfold bind.
      rewrite (secureRandomInt_first_draw s fuel _ p (Z.of_nat j));
        [| lia | unfold maxArrayLength in Hmax; lia
         | by rewrite <- (Hs 0%nat (Z.of_nat j) eq_refl), Nat.add_0_r | done].
      rewrite (swap_inserts array (S i) j xi x) by done.
      fold array'. rewrite (Hjs s fuel Hfuel).
      * f_equal. lia.
      * intros k j' Hk. rewrite <- (Hs (S k) j' Hk). f_equal. lia.
Qed.

(** X6: the shuffle excludes no arrangement: every permutation of the array
    is what [shuffleInPlace] returns for some stream of draws, reading one
    value per step. *)
Theorem shuffleInPlace_reaches_every_permutation (array target : jsarray) p :
  Z.of_nat (length array) ≤ maxArrayLength →
  target ≡ₚ array →
  ∃ s, ∀ fuel, (0 < fuel)%nat →
               shuffleInPlace (WithCrypto s) fuel array p
               = Done target (p + (length array - 1)).
Proof.
  intros Hmax Hperm. unfold shuffleInPlace.
  destruct array as [|a array].
  - apply Permutation_nil_r in Hperm as ->. exists (λ _, 0).
    intros fuel _. simpl. by rewrite Nat.add_0_r.
  - destruct (shuffle_from_reaches (length (a :: array) - 1) (a :: array)
                target p) as (js & _ & Hjs); try done.
    + simpl. lia.
    + pose proof (Permutation_length Hperm) as Hlen.
      rewrite !drop_ge; [done | simpl in *; lia | simpl in *; lia].
    + exists (λ k, default 0 (js !! (k - p)%nat)). intros fuel Hfuel.
      apply Hjs; [done |]. intros k j Hk.
      replace (p + k - p)%nat with k by lia. by rewrite Hk.
Qed.

Lemma shuffleInPlace_reaches_every_permutation_witness :
  ∃ s, ∀ fuel, (0 < fuel)%nat →
               shuffleInPlace (WithCrypto s) fuel
                 [Some "a"; Some "b"; Some "c"]%char 4%nat
               = Done [Some "c"; Some "a"; Some "b"]%char (4 + (3 - 1)).
Proof.
  apply (shuffleInPlace_reaches_every_permutation
           [Some "a"; Some "b"; Some "c"]%char
           [Some "c"; Some "a"; Some "b"]%char 4%nat).
  - vm_compute. discriminate.
  - apply (bool_decide_unpack _). by vm_compute.
Defined.

(** ** The composer: cost, slider range, minimum length *)

Lemma fill_loop_length env fuel len combinedPool :
  ∀ n chars p chars' p',
    fill_loop env fuel n len combinedPool chars p = Done chars' p' →
    Z.of_nat (length chars') = Z.max len (Z.of_nat (length chars)).
Proof.
  induction n as [|n IH]; intros chars p chars' p'; simpl;
    destruct (Z.of_nat (length chars) <? len) eqn:Hlt;
    try discriminate;
    try (intros [= <- _]; apply Z.ltb_ge in Hlt; lia).
  intros (c & p1 & _ & (chars1 & p2 & Hpush & Hrest)%bind_Done)%bind_Done.
  unfold arr_push in Hpush.
  destruct (Z.of_nat (length chars) <? maxArrayLength); [| discriminate].
  injection Hpush as <- <-. apply Z.ltb_lt in Hlt.
  apply IH in Hrest. rewrite length_app in Hrest. simpl in Hrest. lia.
Qed.

(** X7: a successful run reads at least [2 * length - 1] random values, one
    per guaranteed character, one per filler character and one per shuffle
    step, and exactly that many on the fallback platform. *)
Theorem generatePassword_reads env fuel len o p r p' :
  generatePassword env fuel len o p = Done r p' →
  error r = "" →
  reads env p p' (Z.to_nat (2 * len - 1)).
Proof.
  unfold generatePassword.
  destruct (length (buildPools o) =? 0)%nat eqn:Hnone;
    [by intros [= <- _] |].
  destruct (len <? Z.of_nat (length (buildPools o))) eqn:Hlen;
    [by intros [= <- _] |].
  apply Nat.eqb_neq in Hnone. apply Z.ltb_ge in Hlen.
  intros (picks & p1 & Hpicks & H)%bind_Done.
  destruct (String.length (str_join (buildPools o)) =? 0)%nat;
    [by injection H as <- _ |].
  apply bind_Done in H as (chars & p2 & Hfill & H).
  apply bind_Done in H as (shuffled & p3 & Hshuffle & [= _ <-]).
  intros _.
  apply map_pickOne_reads in Hpicks as [Hpl Hpicks].
  pose proof (fill_loop_length _ _ _ _ _ _ _ _ _ Hfill) as Hcl.
  apply fill_loop_reads in Hfill as [_ Hfill].
  apply shuffle_from_reads in Hshuffle.
  pose proof (reads_trans _ _ _ _ _ _ Hpicks
                (reads_trans _ _ _ _ _ _ Hfill Hshuffle)) as Hall.
  replace (Z.to_nat (2 * len - 1))
    with (length (buildPools o)
          + (length chars - length picks + (length chars - 1)))%nat by lia.
  exact Hall.
Qed.

Lemma generatePassword_reads_witness :
  reads countingFallback 0 15 (Z.to_nat (2 * 8 - 1)).
Proof.
  apply (generatePassword_reads countingFallback 1 8 allClasses 0%nat
           {| password := "p+>.<8?A"; error := "" |} 15).
  - vm_compute. reflexivity.
  - reflexivity.
Defined.

(** X8: with a length of at least 4, the least the slider offers, the
    too-short error cannot occur: the result carries the no-option message
    when no class is selected and no error at all otherwise. *)
Theorem generatePassword_length_4 env fuel len o p r p' :
  4 ≤ len →
  generatePassword env fuel len o p = Done r p' →
  error r = (if decide (selectedCount o = 0%nat) then noOptionMessage else "").
Proof.
  intros Hlen. rewrite <- buildPools_count. unfold generatePassword.
  pose proof (buildPools_length o) as H4.
  destruct (length (buildPools o) =? 0)%nat eqn:Hnone.
  { apply Nat.eqb_eq in Hnone. intros [= <- _]. by rewrite decide_True. }
  apply Nat.eqb_neq in Hnone. rewrite decide_False by done.
  rewrite (proj2 (Z.ltb_ge _ _)) by lia.
  intros (picks & p1 & _ & H)%bind_Done.
  assert (buildPools o ≠ []) as Hne by (by destruct (buildPools o)).
  pose proof (combinedPool_nonempty o Hne) as Hcomb.
  rewrite (proj2 (Nat.eqb_neq _ _)) in H by lia.
  apply bind_Done in H as (chars & p2 & _ & H).
  by apply bind_Done in H as (shuffled & p3 & _ & [= <- _]).
Qed.

Lemma generatePassword_length_4_witness :
  error {| password := "p+>.<8?A"; error := "" |}
  = (if decide (selectedCount allClasses = 0%nat) then noOptionMessage else "").
Proof.
  apply (generatePassword_length_4 counting 1 8 allClasses 0%nat _ 15).
  - lia.
  - vm_compute. reflexivity.
Defined.

Lemma omap_Permutation {A B} (f : A → option B) (l1 l2 : list A) :
  l1 ≡ₚ l2 → omap f l1 ≡ₚ omap f l2.
Proof.
  induction 1 as [|x l1 l2 _ IH|x y l|l1 l2 l3 _ IH1 _ IH2]; csimpl.
  - done.
  - destruct (f x); [by constructor | done].
  - destruct (f x), (f y); try done. apply Permutation_swap.
  - by etrans.
Qed.

Lemma picked_chars pools picks :
  Forall2 picked pools picks →
  ∃ chs, picks = Some <$> chs
         ∧ Forall2 (λ pool ch, ch ∈ chars_of pool) pools chs.
Proof.
  induction 1 as [|pool c pools picks (ch & -> & Hch) _ (chs & -> & IH)].
  - by exists [].
  - exists (ch :: chs). split; [done | by constructor].
Qed.

(** With one character read from each of several pools that share no
    character, each pool owns exactly one of the characters. *)
Lemma one_pick_per_pool (pools : list string) (chs : list ascii) :
  NoDup pools →
  (∀ p1 p2 ch, p1 ∈ pools → p2 ∈ pools →
               ch ∈ chars_of p1 → ch ∈ chars_of p2 → p1 = p2) →
  Forall2 (λ pool ch, ch ∈ chars_of pool) pools chs →
  ∀ pool, pool ∈ pools →
          length (filter (λ ch, ch ∈ chars_of pool) chs) = 1%nat.
Proof.
  intros Hnodup Hdisj Hpicks. revert Hnodup Hdisj.
  induction Hpicks as [|q c qs cs Hc Hrest IH]; intros Hnodup Hdisj pool Hpool.
  - by apply elem_of_nil in Hpool.
  - apply NoDup_cons in Hnodup as [Hq Hnodup].
    apply elem_of_cons in Hpool as [-> | Hpool].
    + rewrite filter_cons_True by done.
      rewrite filter_none; [done |].
      intros c' Hc' Hin.
      apply list_elem_of_lookup_1 in Hc' as [i Hi].
      destruct (Forall2_lookup_r _ _ _ _ _ Hrest Hi) as (q' & Hq' & Hcq').
      apply list_elem_of_lookup_2 in Hq'.
      apply Hq. rewrite (Hdisj q q' c'); [done | by left | by right | done..].
    + rewrite filter_cons_False.
      * apply IH; [done | | done].
        intros p1 p2 ch H1 H2. apply Hdisj; by right.
      * intros Hin. apply Hq.
        rewrite (Hdisj q pool c); [done | by left | by right | done..].
Qed.

Lemma buildPools_NoDup o : NoDup (buildPools o).
Proof. destruct o as [[] [] [] []]; apply (bool_decide_unpack _); by vm_compute. Qed.

Lemma buildPools_disjoint o p1 p2 ch :
  p1 ∈ buildPools o → p2 ∈ buildPools o →
  ch ∈ chars_of p1 → ch ∈ chars_of p2 → p1 = p2.
Proof.
  intros (c1 & _ & ->)%elem_of_buildPools (c2 & _ & ->)%elem_of_buildPools H1 H2.
  by rewrite (pools_disjoint c1 c2 ch).
Qed.

(** X9: when the length equals the number of selected classes the password
    is made of the guaranteed characters alone: it has one character per
    selected class, and each selected class owns exactly one of them. *)
Theorem generatePassword_minimum_length env fuel o p r p' :
  in_range env →
  selectedCount o ≠ 0%nat →
  generatePassword env fuel (Z.of_nat (selectedCount o)) o p = Done r p' →
  error r = ""
  ∧ String.length (password r) = selectedCount o
  ∧ ∀ c, enabled o c = true →
         length (filter (λ ch, ch ∈ chars_of (poolOf c))
                   (chars_of (password r))) = 1%nat.
Proof.
  intros Hrange Hsome Hrun. rewrite <- buildPools_count in *.
  assert (valid_request (Z.of_nat (length (buildPools o))) o) as Hvalid.
  { split; [by destruct (buildPools o) | lia]. }
  apply generatePassword_valid_Done in Hrun; try done.
  split; [by eapply composed_error |].
  split; [apply Nat2Z.inj; by eapply composed_length |].
  destruct Hrun as (picks & fills & shuffled & Hpicks & _ & Hlen & Hperm & ->).
  pose proof (Forall2_length _ _ _ Hpicks) as Hpl.
  assert (fills = []) as ->.
  { rewrite length_app in Hlen. destruct fills; [done | simpl in Hlen; lia]. }
  rewrite app_nil_r in Hperm.
  apply picked_chars in Hpicks as (chs & -> & Hchs).
  intros c Hc. simpl. rewrite chars_of_arr_join.
  rewrite (omap_Permutation id _ _ Hperm), omap_id_Some.
  apply (one_pick_per_pool (buildPools o)).
  - apply buildPools_NoDup.
  - apply buildPools_disjoint.
  - done.
  - apply elem_of_buildPools. eauto.
Qed.

Lemma generatePassword_minimum_length_witness :
  let r := {| password := "p8A"; error := "" |} in
  let o := Options true true true false in
  error r = ""
  ∧ String.length (password r) = selectedCount o
  ∧ ∀ c, enabled o c = true →
         length (filter (λ ch, ch ∈ chars_of (poolOf c))
                   (chars_of (password r))) = 1%nat.
Proof.
  apply (generatePassword_minimum_length counting 1
           (Options true true true false) 0%nat _ 5).
  - exact I.
  - discriminate.
  - vm_compute. reflexivity.
Defined.

(** * The page around the generator: properties *)

Example strength_table_samples :
  strengthShown "AAAA" 1 = ("Weak", RInt 18)
  ∧ strengthShown "p+>.<8?A" 4 = ("Medium", RInt 59)
  ∧ strengthShown "" 4 = (noStrengthText, RInt 0).
Proof. repeat split; vm_compute; reflexivity. Qed.

(** ** The strength estimate *)

Lemma strengthShown_grid password selectedPoolCount :
  password ≠ "" →
  strengthShown password selectedPoolCount
  = gridShown (Nat.min 32 (String.length password))
      (Nat.min 4 selectedPoolCount).
Proof. by destruct password. Qed.

Lemma strengthShown_empty selectedPoolCount :
  strengthShown "" selectedPoolCount = (noStrengthText, RInt 0).
Proof. done. Qed.

Lemma grid_all (P : nat → nat → Prop) :
  Forall (λ n, Forall (P n) (seq 0 5)) (seq 0 33) →
  ∀ n k, (n ≤ 32)%nat → (k ≤ 4)%nat → P n k.
Proof.
  intros Hall n k Hn Hk.
  assert (n ∈ seq 0 33) as Hin by (apply elem_of_seq; lia).
  pose proof (proj1 (Forall_forall _ _) Hall n Hin) as Hrow.
  apply (proj1 (Forall_forall _ _) Hrow k). apply elem_of_seq. lia.
Qed.

Lemma grid_ratedByBar n k :
  (1 ≤ n ≤ 32)%nat → (k ≤ 4)%nat → ratedByBar (gridShown n k).
Proof.
  intros Hn Hk.
  apply (grid_all (λ n k, n ≠ 0%nat → ratedByBar (gridShown n k)));
    [| lia | lia | lia].
  apply (bool_decide_unpack _). by vm_compute.
Qed.

(** X10: for a non-empty password the strength bar shows a whole number of
    percent between 2 and 100, and the label follows from it: Strong from
    71, Medium from 46 to 70, Weak up to 45.  (A score just below 0.7 is
    Medium and rounds to 70.) *)
Theorem setStrength_label_and_bar password selectedPoolCount :
  password ≠ "" →
  ∃ pct,
    (strengthShown password selectedPoolCount).2 = RInt pct
    ∧ 2 ≤ pct ≤ 100
    ∧ ((strengthShown password selectedPoolCount).1 = "Strong" ↔ 71 ≤ pct)
    ∧ ((strengthShown password selectedPoolCount).1 = "Medium"
       ↔ 46 ≤ pct ≤ 70)
    ∧ ((strengthShown password selectedPoolCount).1 = "Weak" ↔ pct ≤ 45).
Proof.
  intros Hne. rewrite strengthShown_grid by done.
  assert (1 ≤ String.length password)%nat as Hlen
    by (destruct password; [done | simpl; lia]).
  pose proof (grid_ratedByBar (Nat.min 32 (String.length password))
                (Nat.min 4 selectedPoolCount) ltac:(lia) ltac:(lia)) as H.
  unfold ratedByBar in H.
  destruct (gridShown _ _).2 as [pct| |]; [| done | done].
  by exists pct.
Qed.

Lemma setStrength_label_and_bar_witness :
  ∃ pct,
    (strengthShown "p+>.<8?A" 4).2 = RInt pct
    ∧ 2 ≤ pct ≤ 100
    ∧ ((strengthShown "p+>.<8?A" 4).1 = "Strong" ↔ 71 ≤ pct)
    ∧ ((strengthShown "p+>.<8?A" 4).1 = "Medium" ↔ 46 ≤ pct ≤ 70)
    ∧ ((strengthShown "p+>.<8?A" 4).1 = "Weak" ↔ pct ≤ 45).
Proof. apply setStrength_label_and_bar. discriminate. Defined.

Lemma grid_thresholds n k :
  (1 ≤ n ≤ 32)%nat → (k ≤ 4)%nat →
  ((gridShown n k).1 = "Strong"
   ↔ (k = 2 ∧ 28 ≤ n) ∨ (k = 3 ∧ 22 ≤ n) ∨ (k = 4 ∧ 15 ≤ n))%nat
  ∧ ((gridShown n k).1 = "Weak"
     ↔ (k = 0 ∧ n ≤ 26) ∨ (k = 1 ∧ n ≤ 19) ∨ (k = 2 ∧ n ≤ 13)
       ∨ (k = 3 ∧ n ≤ 6))%nat
  ∧ ((gridShown n k).1 = "Strong" ∨ (gridShown n k).1 = "Medium"
     ∨ (gridShown n k).1 = "Weak").
Proof.
  intros Hn Hk.
  apply (grid_all (λ n k, n ≠ 0%nat →
    ((gridShown n k).1 = "Strong"
     ↔ (k = 2 ∧ 28 ≤ n) ∨ (k = 3 ∧ 22 ≤ n) ∨ (k = 4 ∧ 15 ≤ n))%nat
    ∧ ((gridShown n k).1 = "Weak"
       ↔ (k = 0 ∧ n ≤ 26) ∨ (k = 1 ∧ n ≤ 19) ∨ (k = 2 ∧ n ≤ 13)
         ∨ (k = 3 ∧ n ≤ 6))%nat
    ∧ ((gridShown n k).1 = "Strong" ∨ (gridShown n k).1 = "Medium"
       ∨ (gridShown n k).1 = "Weak")));
    [| lia | lia | lia].
  apply (bool_decide_unpack _). by vm_compute.
Qed.

(** X11: what it takes to be rated.  A non-empty password is Strong exactly
    when it has 2 classes and at least 28 characters, 3 classes and at least
    22, or 4 classes and at least 15; it is Weak exactly when it has no
    class and at most 26 characters, 1 class and at most 19, 2 classes and
    at most 13, or 3 classes and at most 6; otherwise it is Medium.  A
    password of a single class is never Strong. *)
Theorem setStrength_thresholds password selectedPoolCount :
  password ≠ "" →
  let n := String.length password in
  let k := selectedPoolCount in
  let label := (strengthShown password selectedPoolCount).1 in
  (label = "Strong"
   ↔ (k = 2 ∧ 28 ≤ n) ∨ (k = 3 ∧ 22 ≤ n) ∨ (4 ≤ k ∧ 15 ≤ n))%nat
  ∧ (label = "Weak"
     ↔ (k = 0 ∧ n ≤ 26) ∨ (k = 1 ∧ n ≤ 19) ∨ (k = 2 ∧ n ≤ 13)
       ∨ (k = 3 ∧ n ≤ 6))%nat
  ∧ (label = "Strong" ∨ label = "Medium" ∨ label = "Weak").
Proof.
  intros Hne. cbv zeta.
  rewrite strengthShown_grid by done.
  set (n := String.length password). set (k := selectedPoolCount).
  assert (1 ≤ n)%nat as Hlen
    by (unfold n; destruct password; [done | simpl; lia]).
  destruct (grid_thresholds (Nat.min 32 n) (Nat.min 4 k) ltac:(lia) ltac:(lia))
    as (Hstrong & Hweak & Hany).
  split; [| split; [| done]].
  - rewrite Hstrong. lia.
  - rewrite Hweak. lia.
Qed.

Lemma setStrength_thresholds_witness :
  let n := String.length "AAAA" in
  let k := 1%nat in
  let label := (strengthShown "AAAA" 1).1 in
  (label = "Strong"
   ↔ (k = 2 ∧ 28 ≤ n) ∨ (k = 3 ∧ 22 ≤ n) ∨ (4 ≤ k ∧ 15 ≤ n))%nat
  ∧ (label = "Weak"
     ↔ (k = 0 ∧ n ≤ 26) ∨ (k = 1 ∧ n ≤ 19) ∨ (k = 2 ∧ n ≤ 13)
       ∨ (k = 3 ∧ n ≤ 6))%nat
  ∧ (label = "Strong" ∨ label = "Medium" ∨ label = "Weak").
Proof. apply (setStrength_thresholds "AAAA" 1). discriminate. Defined.

(** One more character, or one more class, never lowers what is shown. *)
Lemma grid_step n k :
  (1 ≤ n ≤ 32)%nat → (k ≤ 4)%nat →
  ((n < 32)%nat →
   (labelRank (gridShown n k).1 ≤ labelRank (gridShown (S n) k).1)%nat
   ∧ percentOf (gridShown n k).2 ≤ percentOf (gridShown (S n) k).2)
  ∧ ((k < 4)%nat →
     (labelRank (gridShown n k).1 ≤ labelRank (gridShown n (S k)).1)%nat
     ∧ percentOf (gridShown n k).2 ≤ percentOf (gridShown n (S k)).2).
Proof.
  intros Hn Hk.
  apply (grid_all (λ n k, n ≠ 0%nat →
    ((n < 32)%nat →
     (labelRank (gridShown n k).1 ≤ labelRank (gridShown (S n) k).1)%nat
     ∧ percentOf (gridShown n k).2 ≤ percentOf (gridShown (S n) k).2)
    ∧ ((k < 4)%nat →
       (labelRank (gridShown n k).1 ≤ labelRank (gridShown n (S k)).1)%nat
       ∧ percentOf (gridShown n k).2 ≤ percentOf (gridShown n (S k)).2)));
    [| lia | lia | lia].
  apply (bool_decide_unpack _). by vm_compute.
Qed.

Lemma grid_monotone_length k (d : nat) :
  ∀ n, (1 ≤ n)%nat → (n + d ≤ 32)%nat → (k ≤ 4)%nat →
       (labelRank (gridShown n k).1 ≤ labelRank (gridShown (n + d) k).1)%nat
       ∧ percentOf (gridShown n k).2 ≤ percentOf (gridShown (n + d) k).2.
Proof.
  induction d as [|d IH]; intros n Hn Hd Hk.
  - rewrite Nat.add_0_r. lia.
  - destruct (grid_step n k ltac:(lia) Hk) as [[Hr Hp] _]; [lia |].
    destruct (IH (S n) ltac:(lia) ltac:(lia) Hk) as [Hr' Hp'].
    replace (n + S d)%nat with (S n + d)%nat by lia. lia.
Qed.

Lemma grid_monotone_classes n (d : nat) :
  ∀ k, (1 ≤ n ≤ 32)%nat → (k + d ≤ 4)%nat →
       (labelRank (gridShown n k).1 ≤ labelRank (gridShown n (k + d)).1)%nat
       ∧ percentOf (gridShown n k).2 ≤ percentOf (gridShown n (k + d)).2.
Proof.
  induction d as [|d IH]; intros k Hn Hd.
  - rewrite Nat.add_0_r. lia.
  - destruct (grid_step n k Hn ltac:(lia)) as [_ [Hr Hp]]; [lia |].
    destruct (IH (S k) Hn ltac:(lia)) as [Hr' Hp'].
    replace (k + S d)%nat with (S k + d)%nat by lia. lia.
Qed.

Lemma grid_monotone n1 k1 n2 k2 :
  (1 ≤ n1 ≤ n2)%nat → (n2 ≤ 32)%nat → (k1 ≤ k2 ≤ 4)%nat →
  (labelRank (gridShown n1 k1).1 ≤ labelRank (gridShown n2 k2).1)%nat
  ∧ percentOf (gridShown n1 k1).2 ≤ percentOf (gridShown n2 k2).2.
Proof.
  intros Hn1 Hn2 Hk.
  pose proof (grid_monotone_length k1 (n2 - n1) n1
                ltac:(lia) ltac:(lia) ltac:(lia)) as H1.
  pose proof (grid_monotone_classes n2 (k2 - k1) k1
                ltac:(lia) ltac:(lia)) as H2.
  replace (n1 + (n2 - n1))%nat with n2 in H1 by lia.
  replace (k1 + (k2 - k1))%nat with k2 in H2 by lia.
  lia.
Qed.

(** X12: the strength estimate is monotone.  A password that is at least as
    long, rated with at least as many classes, never gets a weaker label or
    a shorter bar. *)
Theorem setStrength_monotone password1 count1 password2 count2 :
  password1 ≠ "" →
  (String.length password1 ≤ String.length password2)%nat →
  (count1 ≤ count2)%nat →
  (labelRank (strengthShown password1 count1).1
   ≤ labelRank (strengthShown password2 count2).1)%nat
  ∧ percentOf (strengthShown password1 count1).2
    ≤ percentOf (strengthShown password2 count2).2.
Proof.
  intros Hne Hlen Hcount.
  assert (1 ≤ String.length password1)%nat as H1
    by (destruct password1; [done | simpl; lia]).
  assert (password2 ≠ "") as Hne2 by (intros ->; simpl in Hlen; lia).
  rewrite !strengthShown_grid by done.
  apply (grid_monotone (Nat.min 32 (String.length password1))
           (Nat.min 4 count1) (Nat.min 32 (String.length password2))
           (Nat.min 4 count2)); lia.
Qed.

Lemma setStrength_monotone_witness :
  (labelRank (strengthShown "AAAA" 1).1
   ≤ labelRank (strengthShown "p+>.<8?A" 4).1)%nat
  ∧ percentOf (strengthShown "AAAA" 1).2
    ≤ percentOf (strengthShown "p+>.<8?A" 4).2.
Proof.
  apply setStrength_monotone; [discriminate | simpl; lia | lia].
Defined.

(** ** The listeners *)

Lemma setStrength_shown password selectedPoolCount pg :
  (strengthText (setStrength password selectedPoolCount pg),
   strengthBarWidth (setStrength password selectedPoolCount pg))
  = strengthShown password selectedPoolCount.
Proof. done. Qed.

Lemma updateStrengthUI_agrees pg : strengthAgrees (updateStrengthUI pg).
Proof. done. Qed.

Lemma messages_nonempty kind : String.length (messageOf kind) ≠ 0%nat.
Proof. by destruct kind. Qed.

(** An invalid request is answered at once with the message of its kind. *)
Lemma generatePassword_invalid env fuel len o p :
  ¬ valid_request len o →
  generatePassword env fuel len o p
  = Done {| password := "";
            error := messageOf
                       (if decide (selectedCount o = 0%nat)
                        then NoCharacterClassSelected
                        else LengthTooShortForSelection (selectedCount o)) |}
         p.
Proof.
  intros Hinvalid. rewrite <- buildPools_count. unfold generatePassword.
  destruct (length (buildPools o) =? 0)%nat eqn:Hnone.
  - apply Nat.eqb_eq in Hnone. by rewrite decide_True.
  - apply Nat.eqb_neq in Hnone. rewrite decide_False by done.
    destruct (len <? Z.of_nat (length (buildPools o))) eqn:Hshort; [done |].
    exfalso. apply Hinvalid. apply Z.ltb_ge in Hshort.
    split; [| done]. by destruct (buildPools o).
Qed.


Example doGenerate_sample :
  doGenerate counting 1 false samplePage 0%nat
  = Done {| optUpper := true; optLower := true; optNumbers := true;
            optSymbols := true; lengthSlider := 8; lengthValue := 8;
            passwordOutput := "p+>.<8?A"; statusMsg := "Password generated.";
            statusIsError := false; statusIsSuccess := true;
            strengthText := "Medium"; strengthBarWidth := RInt 59 |} 15.
Proof. vm_compute. reflexivity. Qed.


(** X14: with an invalid request no random value is read and no password is
    shown: the password field is emptied and the strength display reset.  A
    click reports the error of the request on the status line; a move of
    the slider, which generates silently, leaves the status line as it
    was. *)
Theorem doGenerate_invalid env fuel silent pg p :
  ¬ valid_request (lengthSlider pg) (getSelectedOptions pg) →
  ∃ pg',
    doGenerate env fuel silent pg p = Done pg' p
    ∧ passwordOutput pg' = ""
    ∧ strengthText pg' = noStrengthText
    ∧ strengthBarWidth pg' = RInt 0
    ∧ getSelectedOptions pg' = getSelectedOptions pg
    ∧ lengthSlider pg' = lengthSlider pg
    ∧ (if silent
       then statusMsg pg' = statusMsg pg
            ∧ statusIsError pg' = statusIsError pg
            ∧ statusIsSuccess pg' = statusIsSuccess pg
       else statusMsg pg'
            = messageOf
                (if decide (selectedCount (getSelectedOptions pg) = 0%nat)
                 then NoCharacterClassSelected
                 else LengthTooShortForSelection
                        (selectedCount (getSelectedOptions pg)))
            ∧ statusIsError pg' = true
            ∧ statusIsSuccess pg' = false).
Proof.
  intros Hinvalid. unfold doGenerate, readLength, bind.
  rewrite (generatePassword_invalid env fuel _ _ p Hinvalid).
  cbn [error password].
  set (kind := if decide (selectedCount (getSelectedOptions pg) = 0%nat)
               then NoCharacterClassSelected
               else LengthTooShortForSelection
                      (selectedCount (getSelectedOptions pg))).
  pose proof (messages_nonempty kind) as Hmsg.
  destruct (String.length (messageOf kind)) as [|n] eqn:Hn; [done |].
  cbn [Nat.eqb negb]. eexists. split; [reflexivity |].
  by destruct silent.
Qed.

Lemma doGenerate_invalid_witness :
  ∃ pg',
    doGenerate counting 1 true
      (Page true true true false 2 2 "old" "" false true "Weak" (RInt 20))
      7%nat = Done pg' 7
    ∧ passwordOutput pg' = ""
    ∧ statusIsSuccess pg' = true.
Proof.
  destruct (doGenerate_invalid counting 1 true
              (Page true true true false 2 2 "old" "" false true "Weak"
                 (RInt 20)) 7%nat)
    as (pg' & Hrun & Hout & _ & _ & _ & _ & _ & _ & Hsucc).
  - intros [_ Hlen]. vm_compute in Hlen. by apply Hlen.
  - exists pg'. split; [exact Hrun |]. split; [exact Hout | exact Hsucc].
Defined.

(** X15: after every listener the strength display rates the password that
    is displayed against the boxes that are checked at that moment: after a
    generation, silent or not, successful or not, and after a change of the
    options, which keeps the password and rates it anew. *)
Theorem listeners_keep_strength_in_step env fuel :
  (∀ silent pg p pg' p',
     doGenerate env fuel silent pg p = Done pg' p' → strengthAgrees pg')
  ∧ (∀ value pg p pg' p',
       onSliderInput env fuel value pg p = Done pg' p' →
       strengthAgrees pg' ∧ lengthSlider pg' = value ∧ lengthValue pg' = value)
  ∧ (∀ pg p pg' p',
       onGenerateClick env fuel pg p = Done pg' p' → strengthAgrees pg')
  ∧ (∀ checked pg,
       strengthAgrees (onOptionChange checked pg)
       ∧ passwordOutput (onOptionChange checked pg) = passwordOutput pg
       ∧ getSelectedOptions (onOptionChange checked pg) = checked
       ∧ statusMsg (onOptionChange checked pg) = "").
Proof.
  assert (∀ silent pg p pg' p',
            doGenerate env fuel silent pg p = Done pg' p' →
            strengthAgrees pg'
            ∧ lengthSlider pg' = lengthSlider pg
            ∧ lengthValue pg' = lengthValue pg) as Hgen.
  { intros silent pg p pg' p'. unfold doGenerate.
    intros (r & p1 & _ & Hshow)%bind_Done.
    destruct (negb (String.length (error r) =? 0)%nat).
    - injection Hshow as <- _. by destruct silent.
    - by injection Hshow as <- _. }
  split; [intros silent pg p pg' p' Hrun; by apply Hgen in Hrun as [? _] |].
  split; [| split].
  - intros value pg p pg' p' Hrun. unfold onSliderInput in Hrun.
    apply Hgen in Hrun as (Hagree & -> & ->). done.
  - intros pg p pg' p'. unfold onGenerateClick. intros Hrun.
    by apply Hgen in Hrun as [? _].
  - intros [u l n s] pg. done.
Qed.

Lemma listeners_keep_strength_in_step_witness :
  strengthAgrees (onOptionChange allClasses
                    (Page true false false false 4 4 "AAAA" "Password generated."
                       false true "Weak" (RInt 18)))
  ∧ strengthText (onOptionChange allClasses
                    (Page true false false false 4 4 "AAAA" "Password generated."
                       false true "Weak" (RInt 18))) = "Medium".
Proof.
  split.
  - apply (listeners_keep_strength_in_step zeros 1).
  - vm_compute. reflexivity.
Defined.

(** ** Every password of the promised shape can be generated *)

Lemma agrees_cons s p j js :
  agrees s p (j :: js) → s p = j ∧ agrees s (S p) js.
Proof.
  intros H. split.
  - rewrite <- (H 0%nat j eq_refl). f_equal. lia.
  - intros k j' Hk. rewrite <- (H (S k) j' Hk). f_equal. lia.
Qed.

Lemma agrees_app s p js1 js2 :
  agrees s p (js1 ++ js2) →
  agrees s p js1 ∧ agrees s (p + length js1) js2.
Proof.
  intros H. split.
  - intros k j Hk. apply H. by apply lookup_app_l_Some.
  - intros k j Hk. rewrite <- (H (length js1 + k)%nat j).
    + f_equal. lia.
    + by rewrite lookup_app_r, Nat.add_sub' by lia.
Qed.

Lemma agrees_nth p js : agrees (λ k, default 0 (js !! (k - p)%nat)) p js.
Proof.
  intros k j Hk. replace (p + k - p)%nat with k by lia. by rewrite Hk.
Qed.

Lemma arr_join_Some (l : list ascii) :
  arr_join (Some <$> l) = string_of_list_ascii l.
Proof. induction l as [|c l IH]; csimpl; [done | by rewrite IH]. Qed.

Lemma pickOne_reaches s fuel str p ch i :
  chars_of str !! i = Some ch →
  Z.of_nat (String.length str) < 2 ^ 32 →
  s p = Z.of_nat i →
  (0 < fuel)%nat →
  pickOne (WithCrypto s) fuel str p = Done (Some ch) (S p).
Proof.
  intros Hi Hlen Hs Hfuel.
  apply lookup_lt_Some in Hi as Hlt. rewrite length_chars_of in Hlt.
  unfold pickOne, bind.
  rewrite (secureRandomInt_first_draw s fuel _ p (Z.of_nat i));
    [| lia | done | done | done].
  unfold ret, str_at. rewrite (proj2 (Z.ltb_ge _ _)) by lia.
  by rewrite get_chars_of, Nat2Z.id, Hi.
Qed.

Lemma map_pickOne_reaches pools chs :
  Forall2 (λ pool ch, ch ∈ chars_of pool) pools chs →
  Forall (λ pool, Z.of_nat (String.length pool) < 2 ^ 32) pools →
  ∀ p, ∃ js,
    length js = length pools
    ∧ ∀ s fuel, (0 < fuel)%nat → agrees s p js →
                map_pickOne (WithCrypto s) fuel pools p
                = Done (Some <$> chs) (p + length pools).
Proof.
  induction 1 as [|pool ch pools chs Hch _ IH]; intros Hsmall p.
  - exists []. split; [done |]. intros s fuel _ _. simpl.
    by rewrite Nat.add_0_r.
  - apply Forall_cons in Hsmall as [Hpool Hsmall].
    apply list_elem_of_lookup_1 in Hch as [i Hi].
    destruct (IH Hsmall (S p)) as (js & Hlen & Hjs).
    exists (Z.of_nat i :: js). split; [simpl; lia |].
    intros s fuel Hfuel [Hs Hrest]%agrees_cons.
    simpl. unfold bind at 1.
    rewrite (pickOne_reaches s fuel pool p ch i) by done.
    unfold bind. rewrite (Hjs s fuel Hfuel Hrest). unfold ret.
    f_equal. lia.
Qed.

Lemma fill_loop_reaches len combinedPool :
  Z.of_nat (String.length combinedPool) < 2 ^ 32 →
  len ≤ maxArrayLength →
  ∀ rest n (chars : jsarray) p,
    Forall (λ ch, ch ∈ chars_of combinedPool) rest →
    (length rest ≤ n)%nat →
    Z.of_nat (length chars + length rest) = len →
    ∃ js,
      length js = length rest
      ∧ ∀ s fuel, (0 < fuel)%nat → agrees s p js →
                  fill_loop (WithCrypto s) fuel n len combinedPool chars p
                  = Done (chars ++ (Some <$> rest)) (p + length rest).
Proof.
  intros Hsmall Hmax.
  induction rest as [|ch rest IH]; intros n chars p Hrest Hn Hlen.
  - exists []. split; [done |]. intros s fuel _ _.
    simpl in Hlen. destruct n; simpl;
      rewrite (proj2 (Z.ltb_ge _ _)) by lia;
      by rewrite app_nil_r, Nat.add_0_r.
  - apply Forall_cons in Hrest as [Hch Hrest].
    apply list_elem_of_lookup_1 in Hch as [i Hi].
    destruct n as [|n]; [simpl in Hn; lia |].
    simpl in Hlen, Hn.
    destruct (IH n (chars ++ [Some ch]) (S p) Hrest ltac:(lia))
      as (js & Hjslen & Hjs).
    { rewrite length_app. simpl. lia. }
    exists (Z.of_nat i :: js). split; [simpl; lia |].
    intros s fuel Hfuel [Hs Hagree]%agrees_cons.
    simpl. rewrite (proj2 (Z.ltb_lt _ _)) by lia.
    unfold bind at 1.
    rewrite (pickOne_reaches s fuel combinedPool p ch i) by done.
    unfold bind at 1, arr_push.
    rewrite (proj2 (Z.ltb_lt _ _)) by lia. unfold ret at 1.
    rewrite (Hjs s fuel Hfuel Hagree), <- app_assoc. simpl.
    f_equal. lia.
Qed.

(** One character of the target for each pool. *)
Lemma choose_picks (pools : list string) (target : list ascii) :
  Forall (λ pool, ∃ ch, ch ∈ chars_of pool ∧ ch ∈ target) pools →
  ∃ chs, Forall2 (λ pool ch, ch ∈ chars_of pool) pools chs
         ∧ Forall (λ ch, ch ∈ target) chs.
Proof.
  induction 1 as [|pool pools (ch & Hch & Hin) _ (chs & IH1 & IH2)].
  - exists []. split; constructor.
  - exists (ch :: chs). split; by constructor.
Qed.

(** Characters read from distinct pools that share no character are
    distinct. *)
Lemma picks_NoDup (pools : list string) (chs : list ascii) :
  NoDup pools →
  (∀ p1 p2 ch, p1 ∈ pools → p2 ∈ pools →
               ch ∈ chars_of p1 → ch ∈ chars_of p2 → p1 = p2) →
  Forall2 (λ pool ch, ch ∈ chars_of pool) pools chs →
  NoDup chs.
Proof.
  intros Hnodup Hdisj Hpicks. revert Hnodup Hdisj.
  induction Hpicks as [|q c qs cs Hc Hrest IH]; intros Hnodup Hdisj.
  - constructor.
  - apply NoDup_cons in Hnodup as [Hq Hnodup]. constructor.
    + intros [i Hi]%list_elem_of_lookup_1.
      destruct (Forall2_lookup_r _ _ _ _ _ Hrest Hi) as (q' & Hq' & Hcq').
      apply list_elem_of_lookup_2 in Hq'.
      apply Hq. rewrite (Hdisj q q' c); [done | by left | by right | done..].
    + apply IH; [done |]. intros p1 p2 ch H1 H2. apply Hdisj; by right.
Qed.

(** X16: no password of the promised shape is out of reach.  Every string
    of the requested length (at most 2^32 - 1) whose characters all belong
    to selected classes and that holds at least one character of each
    selected class is the password [generatePassword] returns for some
    stream of draws, none of which is rejected. *)
Theorem generatePassword_reaches_every_valid_password len o (w : string) p :
  selectedCount o ≠ 0%nat →
  Z.of_nat (String.length w) = len →
  len ≤ maxArrayLength →
  (∀ ch, ch ∈ chars_of w →
         ∃ c, enabled o c = true ∧ ch ∈ chars_of (poolOf c)) →
  (∀ c, enabled o c = true →
        ∃ ch, ch ∈ chars_of (poolOf c) ∧ ch ∈ chars_of w) →
  ∃ s, ∀ fuel, (0 < fuel)%nat →
               generatePassword (WithCrypto s) fuel len o p
               = Done {| password := w; error := "" |}
                      (p + Z.to_nat (2 * len - 1)).
Proof.
  intros Hsome Hlen Hmax Honly Hcover.
  rewrite <- buildPools_count in Hsome.
  assert (buildPools o ≠ []) as Hne by (by destruct (buildPools o)).
  destruct (choose_picks (buildPools o) (chars_of w)) as (chs & Hchs & Hin).
  { apply Forall_forall. intros pool (c & Hc & ->)%elem_of_buildPools.
    by apply Hcover. }
  pose proof (picks_NoDup _ _ (buildPools_NoDup o) (buildPools_disjoint o) Hchs)
    as Hnodup.
  destruct (submseteq_Permutation chs (chars_of w)) as [rest Hperm].
  { apply NoDup_submseteq; [done |].
    intros ch Hch. by apply (proj1 (Forall_forall _ _) Hin). }
  pose proof (Forall2_length _ _ _ Hchs) as Hpl.
  pose proof (Permutation_length Hperm) as Hwl.
  rewrite length_chars_of, length_app in Hwl.
  assert (Forall (λ ch, ch ∈ chars_of (str_join (buildPools o))) rest)
    as Hrest.
  { apply Forall_forall. intros ch Hch. apply elem_of_str_join.
    destruct (Honly ch) as (c & Hc & Hpool).
    - rewrite Hperm. apply elem_of_app. by right.
    - exists (poolOf c). split; [| done]. apply elem_of_buildPools. eauto. }
  pose proof (combinedPool_nonempty o Hne) as Hcomb.
  pose proof (combinedPool_length_small o) as Hsmall.
  destruct (map_pickOne_reaches _ _ Hchs
              (Forall_impl _ _ _ (pool_length_small o)
                 (λ pool H, proj2 H)) p)
    as (js1 & Hl1 & Hrun1).
  destruct (fill_loop_reaches len (str_join (buildPools o)) Hsmall Hmax
              rest (Z.to_nat len) (Some <$> chs) (p + length (buildPools o)))
    as (js2 & Hl2 & Hrun2); [done | lia | rewrite length_fmap; lia |].
  set (chars := (Some <$> chs) ++ (Some <$> rest)) in *.
  assert (length chars = Z.to_nat len) as Hcl.
  { unfold chars. rewrite length_app, !length_fmap. lia. }
  destruct (shuffle_from_reaches (length chars - 1) chars
              (Some <$> chars_of w)
              (p + length (buildPools o) + length rest))
    as (js3 & Hl3 & Hrun3).
  { lia. }
  { lia. }
  { unfold chars. rewrite <- fmap_app. by rewrite Hperm. }
  { rewrite !drop_ge; [done | | ];
      rewrite ?length_fmap, ?length_chars_of; lia. }
  exists (λ k, default 0 ((js1 ++ js2 ++ js3) !! (k - p)%nat)).
  intros fuel Hfuel.
  pose proof (agrees_nth p (js1 ++ js2 ++ js3)) as Hagree.
  apply agrees_app in Hagree as [Ha1 Ha23].
  apply agrees_app in Ha23 as [Ha2 Ha3].
  rewrite Hl1 in Ha2, Ha3. rewrite Hl2 in Ha3.
  unfold generatePassword.
  rewrite (proj2 (Nat.eqb_neq _ _)) by done.
  rewrite (proj2 (Z.ltb_ge _ _)) by lia.
  unfold bind at 1. rewrite (Hrun1 _ fuel Hfuel Ha1).
  rewrite (proj2 (Nat.eqb_neq _ _)) by lia.
  unfold bind at 1. rewrite (Hrun2 _ fuel Hfuel Ha2).
  unfold bind, shuffleInPlace. fold chars.
  rewrite (Hrun3 _ fuel Hfuel Ha3). unfold ret.
  rewrite arr_join_Some, string_of_list_ascii_of_string.
  f_equal. lia.
Qed.

Lemma generatePassword_reaches_every_valid_password_witness :
  ∃ s, ∀ fuel, (0 < fuel)%nat →
               generatePassword (WithCrypto s) fuel 5 upperAndNumbers 3%nat
               = Done {| password := "7ZQ9A"; error := "" |}
                      (3 + Z.to_nat (2 * 5 - 1)).
Proof.
  apply (generatePassword_reaches_every_valid_password 5 upperAndNumbers
           "7ZQ9A" 3%nat).
  - discriminate.
  - reflexivity.
  - vm_compute. discriminate.
  - intros ch Hch.
    assert (ch ∈ chars_of CHARSETS.upper ∨ ch ∈ chars_of CHARSETS.numbers)
      as [H | H].
    { simpl in Hch.
      repeat (apply elem_of_cons in Hch as [-> | Hch];
              [first [left; apply (bool_decide_unpack _); by vm_compute
                     | right; apply (bool_decide_unpack _); by vm_compute] |]).
      by apply elem_of_nil in Hch. }
    + by exists Upper.
    + by exists Digit.
  - intros [] Hc; try discriminate.
    + exists "Z"%char. split; apply (bool_decide_unpack _); by vm_compute.
    + exists "7"%char. split; apply (bool_decide_unpack _); by vm_compute.
Defined.

(** ** Picking a character *)



(** X18: whatever classes are selected, no character occurs twice in the
    combined pool: no pool repeats a character and no two pools share one.
    The pools have 26, 26, 10 and 28 characters. *)
Theorem combinedPool_NoDup o :
  NoDup (chars_of (str_join (buildPools o)))
  ∧ String.length (str_join (buildPools o))
    = ((if upper o then 26 else 0) + (if lower o then 26 else 0)
       + (if numbers o then 10 else 0) + (if symbols o then 28 else 0))%nat
  ∧ ∀ c, NoDup (chars_of (poolOf c)).
Proof.
  split; [| split].
  - destruct o as [[] [] [] []]; apply (bool_decide_unpack _); by vm_compute.
  - by destruct o as [[] [] [] []].
  - intros []; apply (bool_decide_unpack _); by vm_compute.
Qed.
